(** * DuctMaster Pro: the duct-sizing calculation engine of [src/app.jsx]

    JavaScript numbers are binary64.  The development has three models of
    them, each for the statements it can carry:

    - The real numbers of the Standard Library, with every operation
      exact: [Math.pow], [Math.sqrt], [Math.PI], [Math.abs], [Math.max] and
      [Math.min] are [Math_pow], [sqrt], [PI], [Rabs], [Rmax] and [Rmin].
      Guards, ranges, orders and bounds with a margin are stated here.
    - The module [Rounded]: the real numbers with every rounding written
      out, for the round trips, which hold up to rounding only.
    - The module [Double]: primitive binary64 numbers, for overflow,
      underflow, infinities and not-a-number, and for the exact value of
      a product or a quotient. *)

From Stdlib Require Import Reals Lra Lia ZArith Bool String.
From Stdlib Require Floats.
From Equations Require Import Equations.

Local Open Scope R_scope.

(** ** Conversion constants (app.jsx, lines 19-22) *)

Definition CMH_TO_CFM : R := 0.588578.
Definition PA_M_TO_IN_100FT : R := 0.1224.
Definition M_S_TO_FPM : R := 196.85.
Definition MM_TO_IN : R := 0.0393701.

(** ** Numeric primitives *)

(** [Math.pow base e].  For a positive base it is [exp (e * ln base)].
    JavaScript gives [0] for a zero base and a positive exponent, and [1]
    for a zero exponent; a negative base with a fractional exponent has no
    real value (JavaScript yields NaN) and is mapped to [0] here.  Every
    call in the engine has a positive base (see [solveDiaByFriction_base_pos]
    and the guards of the other functions). *)
Definition Math_pow (base e : R) : R :=
  if Rlt_dec 0 base then Rpower base e
  else if Req_dec_T e 0 then 1 else 0.

(** [a <= 0 || b <= 0] as a boolean. *)
Definition nonpos (a : R) : bool := if Rle_dec a 0 then true else false.

(** ** HVAC math functions (app.jsx, lines 25-45) *)

Definition solveDiaByFriction (cfm friction : R) : R :=
  if nonpos cfm || nonpos friction then 0
  else Math_pow ((0.109136 * Math_pow cfm 1.9) / friction) (1 / 5.02).

Definition solveDiaByVelocity (cfm fpm : R) : R :=
  if nonpos cfm || nonpos fpm then 0
  else
    let areaSqFt := cfm / fpm in
    2 * sqrt (areaSqFt / PI) * 12.

Definition calcVelocity (cfm diaInches : R) : R :=
  if nonpos diaInches then 0
  else
    let areaSqFt := PI * Math_pow (diaInches / 24) 2 in
    cfm / areaSqFt.

Definition calcFriction (cfm diaInches : R) : R :=
  if nonpos diaInches || nonpos cfm then 0
  else (0.109136 * Math_pow cfm 1.9) / Math_pow diaInches 5.02.

(** ** Rectangular equivalency search (app.jsx, lines 47-62) *)

(** The body of the loop up to [diff]: [top], [bot], [calcDe], [diff]. *)
Definition calcDe (knownSide x : R) : R :=
  let top := Math_pow (knownSide * x) 0.625 in
  let bot := Math_pow (knownSide + x) 0.25 in
  1.30 * (top / bot).

Definition scanDiff (targetDia knownSide x : R) : R :=
  Rabs (calcDe knownSide x - targetDia).

(** Iterations that remain when the loop variable is [x]. *)
Definition stepsLeft (x : R) : nat := Z.to_nat (up (2 * (150 - x))).

(** The [for] loop, from the test [x <= 150] on, with the loop variable and
    the two mutable locals as arguments. *)
Equations? rectScan (targetDia knownSide x minDiff bestSide : R) : R
  by wf (stepsLeft x) lt :=
  rectScan targetDia knownSide x minDiff bestSide with Rle_dec x 150 := {
    | right _ => bestSide
    | left _ with Rlt_dec (scanDiff targetDia knownSide x) minDiff := {
        | left _ =>
            rectScan targetDia knownSide (x + 0.5) (scanDiff targetDia knownSide x) x
        | right _ =>
            rectScan targetDia knownSide (x + 0.5) minDiff bestSide } }.
Proof.
  all: unfold stepsLeft;
    replace (2 * (150 - (x + 0.5))) with (2 * (150 - x) - 1) by lra;
    set (rem := 2 * (150 - x));
    assert (Hrem : 0 <= rem) by (unfold rem; lra);
    destruct (archimed rem) as [Hu1 Hu2];
    assert (Hup : up (rem - 1) = (up rem - 1)%Z)
      by (symmetry; apply tech_up; rewrite minus_IZR; lra);
    rewrite Hup;
    assert (Hpos : (1 <= up rem)%Z)
      by (apply le_IZR; apply Rnot_lt_le; intros Hc;
          assert (IZR (up rem) <= 0)
            by (apply IZR_le; apply lt_IZR in Hc; lia); lra);
    lia.
Qed.

Definition solveRectDimension (targetDia knownSide : R) : R :=
  if nonpos targetDia || nonpos knownSide then 0
  else rectScan targetDia knownSide 2 1000 0.

(** ** Scan points and the loop invariant *)

(** The values the loop variable takes from [x] on: [x], [x + 0.5], ...,
    as long as they pass the test [<= 150]. *)
Definition visited (x y : R) : Prop :=
  exists j : nat, y = x + 0.5 * INR j /\ y <= 150.

(** The scan points of [solveRectDimension]: 2, 2.5, ..., 150. *)
Definition scanPoint (y : R) : Prop :=
  exists j : nat, (j <= 296)%nat /\ y = 2 + 0.5 * INR j.


(** What the loop returns from the state [(x, minDiff, bestSide)]: either no
    visited point is strictly below [minDiff] and [bestSide] is returned
    unchanged, or the result is the first visited point of least
    difference, and that difference is strictly below [minDiff]. *)
Definition scanOutcome (t k x m b r : R) : Prop :=
  (r = b /\ forall y, visited x y -> m <= scanDiff t k y)
  \/ (visited x r /\ scanDiff t k r < m
      /\ (forall y, visited x y -> scanDiff t k r <= scanDiff t k y)
      /\ (forall y, visited x y -> y < r -> scanDiff t k r < scanDiff t k y)).

(** ** The component state and its handlers (app.jsx, lines 64-110) *)

Inductive Units : Type := IP | SI.
Inductive Mode : Type := friction | velocity.

Record AppState : Type := mkAppState {
  units : Units;
  mode : Mode;
  airflowIP : R;
  frictionIP : R;
  velocityIP : R;
  rectSideIP : R;
  resultDia : R;
  resultVelocity : R;
  resultFriction : R;
  resultRectSide : R
}.

(** The [useState] defaults. *)
Definition initialState : AppState :=
  mkAppState IP friction 1000 0.1 1200 12 0 0 0 0.

Definition setUnits (u : Units) (st : AppState) : AppState :=
  mkAppState u (mode st) (airflowIP st) (frictionIP st) (velocityIP st)
    (rectSideIP st) (resultDia st) (resultVelocity st) (resultFriction st)
    (resultRectSide st).

Definition setMode (m : Mode) (st : AppState) : AppState :=
  mkAppState (units st) m (airflowIP st) (frictionIP st) (velocityIP st)
    (rectSideIP st) (resultDia st) (resultVelocity st) (resultFriction st)
    (resultRectSide st).

Definition setAirflowIP (v : R) (st : AppState) : AppState :=
  mkAppState (units st) (mode st) v (frictionIP st) (velocityIP st)
    (rectSideIP st) (resultDia st) (resultVelocity st) (resultFriction st)
    (resultRectSide st).

Definition setFrictionIP (v : R) (st : AppState) : AppState :=
  mkAppState (units st) (mode st) (airflowIP st) v (velocityIP st)
    (rectSideIP st) (resultDia st) (resultVelocity st) (resultFriction st)
    (resultRectSide st).

Definition setVelocityIP (v : R) (st : AppState) : AppState :=
  mkAppState (units st) (mode st) (airflowIP st) (frictionIP st) v
    (rectSideIP st) (resultDia st) (resultVelocity st) (resultFriction st)
    (resultRectSide st).

Definition setRectSideIP (v : R) (st : AppState) : AppState :=
  mkAppState (units st) (mode st) (airflowIP st) (frictionIP st) (velocityIP st)
    v (resultDia st) (resultVelocity st) (resultFriction st)
    (resultRectSide st).

Definition setResultDia (v : R) (st : AppState) : AppState :=
  mkAppState (units st) (mode st) (airflowIP st) (frictionIP st) (velocityIP st)
    (rectSideIP st) v (resultVelocity st) (resultFriction st)
    (resultRectSide st).

Definition setResultVelocity (v : R) (st : AppState) : AppState :=
  mkAppState (units st) (mode st) (airflowIP st) (frictionIP st) (velocityIP st)
    (rectSideIP st) (resultDia st) v (resultFriction st)
    (resultRectSide st).

Definition setResultFriction (v : R) (st : AppState) : AppState :=
  mkAppState (units st) (mode st) (airflowIP st) (frictionIP st) (velocityIP st)
    (rectSideIP st) (resultDia st) (resultVelocity st) v
    (resultRectSide st).

Definition setResultRectSide (v : R) (st : AppState) : AppState :=
  mkAppState (units st) (mode st) (airflowIP st) (frictionIP st) (velocityIP st)
    (rectSideIP st) (resultDia st) (resultVelocity st) (resultFriction st)
    v.

(** The handlers take [num], the value of [Number(val)]. *)
Definition handleAirflowChange (num : R) (st : AppState) : AppState :=
  match units st with
  | IP => setAirflowIP num st
  | SI => setAirflowIP (num * CMH_TO_CFM) st
  end.

Definition handleFrictionChange (num : R) (st : AppState) : AppState :=
  match units st with
  | IP => setFrictionIP num st
  | SI => setFrictionIP (num * PA_M_TO_IN_100FT) st
  end.

Definition handleVelocityChange (num : R) (st : AppState) : AppState :=
  match units st with
  | IP => setVelocityIP num st
  | SI => setVelocityIP (num * M_S_TO_FPM) st
  end.

Definition handleRectSideChange (num : R) (st : AppState) : AppState :=
  match units st with
  | IP => setRectSideIP num st
  | SI => setRectSideIP (num * MM_TO_IN) st
  end.

(** ** The calculation effect (app.jsx, lines 182-205) *)

(** [0 < a] as a boolean. *)
Definition ispos (a : R) : bool := if Rlt_dec 0 a then true else false.

(** Step 1: the diameter [d] and the state after the three setters. *)
Definition calcDiameterStep (st : AppState) : R * AppState :=
  match mode st with
  | friction =>
      let d := solveDiaByFriction (airflowIP st) (frictionIP st) in
      (d, setResultFriction (frictionIP st)
            (setResultVelocity (calcVelocity (airflowIP st) d)
               (setResultDia d st)))
  | velocity =>
      let d := solveDiaByVelocity (airflowIP st) (velocityIP st) in
      (d, setResultFriction (calcFriction (airflowIP st) d)
            (setResultVelocity (velocityIP st)
               (setResultDia d st)))
  end.

(** Step 2: the rectangular dimension. *)
Definition calcRectStep (d : R) (st : AppState) : AppState :=
  if ispos d && ispos (rectSideIP st)
  then setResultRectSide (solveRectDimension d (rectSideIP st)) st
  else setResultRectSide 0 st.

Definition calculationEffect (st : AppState) : AppState :=
  let (d, st1) := calcDiameterStep st in
  calcRectStep d st1.

(** ** Display values and the aspect-ratio warning (app.jsx, lines 214-228) *)

Definition displayAirflow (st : AppState) : R :=
  match units st with IP => airflowIP st | SI => airflowIP st / CMH_TO_CFM end.
Definition displayFriction (st : AppState) : R :=
  match units st with IP => frictionIP st | SI => frictionIP st / PA_M_TO_IN_100FT end.
Definition displayVelocity (st : AppState) : R :=
  match units st with IP => velocityIP st | SI => velocityIP st / M_S_TO_FPM end.
Definition displayRectSide (st : AppState) : R :=
  match units st with IP => rectSideIP st | SI => rectSideIP st / MM_TO_IN end.

Definition showVel (st : AppState) : R :=
  match units st with IP => resultVelocity st | SI => resultVelocity st / M_S_TO_FPM end.
Definition showRectRes (st : AppState) : R :=
  match units st with IP => resultRectSide st | SI => resultRectSide st / MM_TO_IN end.

(** [v || 1]: a zero is replaced by 1. *)
Definition orOne (v : R) : R := if Req_dec_T v 0 then 1 else v.

(** [ratioVal] and [isRatioWarning] as functions of the two sides they are
    computed from. *)
Definition aspectRatio (sideA sideB : R) : R :=
  let safeA := orOne sideA in
  let safeB := orOne sideB in
  Rmax safeA safeB / Rmin safeA safeB.

Definition aspectWarning (sideA sideB : R) : bool :=
  if Rlt_dec 4 (aspectRatio sideA sideB) then true else false.

Definition ratioVal (st : AppState) : R :=
  aspectRatio (displayRectSide st) (showRectRes st).

Definition isRatioWarning (st : AppState) : bool :=
  aspectWarning (displayRectSide st) (showRectRes st).

(** The verdict of the specification's [evaluateAspect]: compliant when
    there is no warning. *)
Definition compliant (sideA sideB : R) : bool := negb (aspectWarning sideA sideB).


(** ** The unit switch and the velocity highlight (app.jsx, lines 244, 365-379) *)

(** The header button: [setUnits(units === 'IP' ? 'SI' : 'IP')]. *)
Definition toggleUnits (st : AppState) : AppState :=
  setUnits (match units st with IP => SI | SI => IP end) st.

(** The result card (app.jsx, lines 365-379): in friction mode it shows the
    velocity, in orange when [showVel > (units==='IP'?1500:7.6)]; in
    velocity mode it shows the friction rate and nothing is highlighted. *)
Definition velocityHighlight (st : AppState) : bool :=
  match mode st with
  | friction =>
      if Rlt_dec (match units st with IP => 1500 | SI => 7.6 end) (showVel st)
      then true else false
  | velocity => false
  end.

(** ** The advisory call (app.jsx, lines 81-85 and 125-179) *)

Inductive AiRequest : Type := analyze | draft.

Record AiState : Type := mkAiState {
  aiLoading : bool;
  aiResponse : string;
  aiError : string;
  aiMode : option AiRequest
}.

Definition initialAiState : AiState := mkAiState false EmptyString EmptyString None.

(** What the awaited [fetch] and [response.json()] come to.  [JsonData text]
    carries the value of [data.candidates?.[0]?.content?.parts?.[0]?.text],
    [None] when the chain is undefined. *)
Inductive FetchOutcome : Type :=
| FetchRejected
| ResponseNotOk
| JsonRejected
| JsonData (text : option string).

(** [text || "No response generated."]: an undefined or empty text is
    replaced. *)
Definition orNoResponse (text : option string) : string :=
  match text with
  | Some (String c rest) => String c rest
  | _ => "No response generated."%string
  end.

(** The four setters before the request. *)
Definition callGemini_begin (type : AiRequest) (ai : AiState) : AiState :=
  mkAiState true EmptyString EmptyString (Some type).

(** The [try] / [catch] / [finally] after the request. *)
Definition callGemini_end (outcome : FetchOutcome) (ai : AiState) : AiState :=
  let ai1 :=
    match outcome with
    | JsonData text =>
        mkAiState (aiLoading ai) (orNoResponse text) (aiError ai) (aiMode ai)
    | FetchRejected | ResponseNotOk | JsonRejected =>
        mkAiState (aiLoading ai) (aiResponse ai)
          "Failed to connect to AI. Please try again."%string (aiMode ai)
    end in
  mkAiState false (aiResponse ai1) (aiError ai1) (aiMode ai1).

Definition callGemini (type : AiRequest) (outcome : FetchOutcome) (ai : AiState)
  : AiState :=
  callGemini_end outcome (callGemini_begin type ai).

(** A string as a condition: the empty string is falsy. *)
Definition truthy (s : string) : bool :=
  match s with EmptyString => false | String _ _ => true end.

(** What the response area renders (app.jsx, lines 468-491). *)
Inductive AiPanel : Type :=
| NoPanel
| Spinner
| ErrorText (msg : string)
| ResponseText (heading : string) (body : string).

Definition aiPanel (ai : AiState) : AiPanel :=
  if aiLoading ai || truthy (aiResponse ai) || truthy (aiError ai) then
    if aiLoading ai then Spinner
    else if truthy (aiError ai) then ErrorText (aiError ai)
    else ResponseText
           (match aiMode ai with
            | Some analyze => "SMACNA Assessment"
            | _ => "Field Instruction"
            end)%string
           (aiResponse ai)
  else NoPanel.

(** ** The engine over binary64 numbers *)

Module Double.

Import Floats.
#[local] Set Warnings "-inexact-float".
Local Open Scope float_scope.

Definition CMH_TO_CFM : float := 0.588578.
Definition PA_M_TO_IN_100FT : float := 0.1224.
Definition M_S_TO_FPM : float := 196.85.
Definition MM_TO_IN : float := 0.0393701.

(** [Math.PI], the binary64 number nearest to pi. *)
Definition Math_PI : float := 0x1.921fb54442d18p+1.

(** [floor (log2 base)] of a finite positive [base]: [base] lies in
    [[2^(ilog2 base), 2^(ilog2 base + 1))]. *)
Definition ilog2 (base : float) : Z := (snd (Z.frexp base) - 1)%Z.

Definition of_Z_abs (z : Z) : float := of_uint63 (Uint63.of_Z (Z.abs z)).

(** [Math.pow] where its value does not depend on the implementation.
    ECMAScript fixes it (Number::exponentiate) for a NaN exponent, a zero
    exponent, a NaN base and the bases [+Infinity] and [+0].  For a finite
    positive base and a positive exponent the standard asks for an
    approximation of the exact power: where that power is above [2^1024]
    (base at least [2^lo] with [lo * exponent >= 1025]) the result is
    [+Infinity], and where it is below [2^-1075] (base below [2^-n] with
    [n * exponent >= 1076]) the result is [+0], for no binary64 number is
    nearer.  [None] stands for every other case. *)
Definition Math_pow (base exponent : float) : option float :=
  if is_nan exponent then Some nan
  else if is_zero exponent then Some 1
  else if is_nan base then Some nan
  else
    match classify base with
    | PInf => Some (if 0 <? exponent then infinity else 0)
    | PZero => Some (if 0 <? exponent then 0 else infinity)
    | PNormal | PSubn =>
        let lo := ilog2 base in
        if (0 <? exponent) && (1 <=? lo)%Z
           && (1025 <=? of_Z_abs lo * exponent)
        then Some infinity
        else if (0 <? exponent) && (lo + 1 <=? 0)%Z
                && (1076 <=? of_Z_abs (lo + 1) * exponent)
        then Some 0
        else None
    | _ => None
    end.

(** The functions of the engine, with [pow] standing for [Math.pow]: a
    result is [None] when a call of [pow] is.  [Math.sqrt] is the correctly
    rounded square root of binary64, as IEEE 754 has it. *)
Section Engine.

Variable pow : float -> float -> option float.

Definition solveDiaByFriction (cfm friction : float) : option float :=
  if (cfm <=? 0) || (friction <=? 0) then Some 0
  else
    match pow cfm 1.9 with
    | Some p => pow ((0.109136 * p) / friction) (1 / 5.02)
    | None => None
    end.

Definition solveDiaByVelocity (cfm fpm : float) : float :=
  if (cfm <=? 0) || (fpm <=? 0) then 0
  else
    let areaSqFt := cfm / fpm in
    2 * sqrt (areaSqFt / Math_PI) * 12.

Definition calcVelocity (cfm diaInches : float) : option float :=
  if diaInches <=? 0 then Some 0
  else
    match pow (diaInches / 24) 2 with
    | Some p => let areaSqFt := Math_PI * p in Some (cfm / areaSqFt)
    | None => None
    end.

Definition calcFriction (cfm diaInches : float) : option float :=
  if (diaInches <=? 0) || (cfm <=? 0) then Some 0
  else
    match pow cfm 1.9, pow diaInches 5.02 with
    | Some p, Some q => Some ((0.109136 * p) / q)
    | _, _ => None
    end.

(** The body of the loop up to [diff]. *)
Definition calcDe (knownSide x : float) : option float :=
  match pow (knownSide * x) 0.625, pow (knownSide + x) 0.25 with
  | Some top, Some bot => Some (1.30 * (top / bot))
  | _, _ => None
  end.

Definition scanDiff (targetDia knownSide x : float) : option float :=
  match calcDe knownSide x with
  | Some de => Some (abs (de - targetDia))
  | None => None
  end.

(** The [for] loop; [None] also when [fuel] runs out before the test
    [x <= 150] fails. *)
Fixpoint rectScan (fuel : nat) (targetDia knownSide x minDiff bestSide : float)
  : option float :=
  match fuel with
  | O => None
  | S fuel' =>
      if x <=? 150 then
        match scanDiff targetDia knownSide x with
        | Some diff =>
            if diff <? minDiff
            then rectScan fuel' targetDia knownSide (x + 0.5) diff x
            else rectScan fuel' targetDia knownSide (x + 0.5) minDiff bestSide
        | None => None
        end
      else Some bestSide
  end.

Definition solveRectDimension (targetDia knownSide : float) : option float :=
  if (targetDia <=? 0) || (knownSide <=? 0) then Some 0
  else rectScan 300 targetDia knownSide 2 1000 0.

End Engine.

(** The display values as functions of the unit system and the canonical
    value, and the canonical values the handlers store. *)
Definition displayAirflow (units : Units) (airflowIP : float) : float :=
  match units with IP => airflowIP | SI => airflowIP / CMH_TO_CFM end.
Definition displayFriction (units : Units) (frictionIP : float) : float :=
  match units with IP => frictionIP | SI => frictionIP / PA_M_TO_IN_100FT end.
Definition displayVelocity (units : Units) (velocityIP : float) : float :=
  match units with IP => velocityIP | SI => velocityIP / M_S_TO_FPM end.
Definition displayRectSide (units : Units) (rectSideIP : float) : float :=
  match units with IP => rectSideIP | SI => rectSideIP / MM_TO_IN end.

Definition handleAirflowChange (units : Units) (num : float) : float :=
  match units with IP => num | SI => num * CMH_TO_CFM end.
Definition handleFrictionChange (units : Units) (num : float) : float :=
  match units with IP => num | SI => num * PA_M_TO_IN_100FT end.
Definition handleVelocityChange (units : Units) (num : float) : float :=
  match units with IP => num | SI => num * M_S_TO_FPM end.
Definition handleRectSideChange (units : Units) (num : float) : float :=
  match units with IP => num | SI => num * MM_TO_IN end.

End Double.

(** ** The engine with rounding errors *)

(** The functions of lines 25-45 once more, over real numbers, with every
    rounding written out: [rnd] is the rounding of a real number to
    binary64, applied to each decimal literal, to [Math.PI] and to the
    result of each operation (integer literals are binary64 numbers);
    [pw] and [sq] are the [Math.pow] and the [Math.sqrt] of the engine,
    which ECMAScript asks to approximate the exact values. *)
Module Rounded.

Section Engine.

Variable rnd : R -> R.
Variable pw : R -> R -> R.
Variable sq : R -> R.

Definition solveDiaByFriction (cfm friction : R) : R :=
  if nonpos cfm || nonpos friction then 0
  else pw (rnd (rnd (rnd 0.109136 * pw cfm (rnd 1.9)) / friction))
          (rnd (1 / rnd 5.02)).

Definition solveDiaByVelocity (cfm fpm : R) : R :=
  if nonpos cfm || nonpos fpm then 0
  else
    let areaSqFt := rnd (cfm / fpm) in
    rnd (rnd (2 * sq (rnd (areaSqFt / rnd PI))) * 12).

Definition calcVelocity (cfm diaInches : R) : R :=
  if nonpos diaInches then 0
  else
    let areaSqFt := rnd (rnd PI * pw (rnd (diaInches / 24)) 2) in
    rnd (cfm / areaSqFt).

Definition calcFriction (cfm diaInches : R) : R :=
  if nonpos diaInches || nonpos cfm then 0
  else rnd (rnd (rnd 0.109136 * pw cfm (rnd 1.9)) / pw diaInches (rnd 5.02)).

(** The display values and the handlers (lines 88-110 and 214-222) as
    functions of the unit system and the value, and the aspect ratio of
    lines 225-228 as a function of the unit system and the two canonical
    sides. *)
Definition displayAirflow (units : Units) (airflowIP : R) : R :=
  match units with IP => airflowIP | SI => rnd (airflowIP / rnd CMH_TO_CFM) end.
Definition displayFriction (units : Units) (frictionIP : R) : R :=
  match units with IP => frictionIP | SI => rnd (frictionIP / rnd PA_M_TO_IN_100FT) end.
Definition displayVelocity (units : Units) (velocityIP : R) : R :=
  match units with IP => velocityIP | SI => rnd (velocityIP / rnd M_S_TO_FPM) end.
Definition displayRectSide (units : Units) (rectSideIP : R) : R :=
  match units with IP => rectSideIP | SI => rnd (rectSideIP / rnd MM_TO_IN) end.
Definition showRectRes (units : Units) (resultRectSide : R) : R :=
  match units with IP => resultRectSide | SI => rnd (resultRectSide / rnd MM_TO_IN) end.

Definition handleAirflowChange (units : Units) (num : R) : R :=
  match units with IP => num | SI => rnd (num * rnd CMH_TO_CFM) end.
Definition handleFrictionChange (units : Units) (num : R) : R :=
  match units with IP => num | SI => rnd (num * rnd PA_M_TO_IN_100FT) end.
Definition handleVelocityChange (units : Units) (num : R) : R :=
  match units with IP => num | SI => rnd (num * rnd M_S_TO_FPM) end.
Definition handleRectSideChange (units : Units) (num : R) : R :=
  match units with IP => num | SI => rnd (num * rnd MM_TO_IN) end.

Definition ratioVal (units : Units) (rectSideIP resultRectSide : R) : R :=
  let safeDisplayRectSide := orOne (displayRectSide units rectSideIP) in
  let safeShowRectRes := orOne (showRectRes units resultRectSide) in
  rnd (Rmax safeDisplayRectSide safeShowRectRes
       / Rmin safeDisplayRectSide safeShowRectRes).

Definition isRatioWarning (units : Units) (rectSideIP resultRectSide : R) : bool :=
  if Rlt_dec 4 (ratioVal units rectSideIP resultRectSide) then true else false.

End Engine.

End Rounded.

(** [rnd] has a relative error of at most [eta] on the numbers between
    1e-300 and 1e300, which are within the normal range of binary64. *)
Definition rounds (eta : R) (rnd : R -> R) : Prop :=
  forall x : R, 1e-300 <= x <= 1e300 -> Rabs (rnd x - x) <= eta * x.

(** [pw] has a relative error of at most [eta] where the exact power is
    between 1e-300 and 1e300. *)
Definition approximates_pow (eta : R) (pw : R -> R -> R) : Prop :=
  forall b e : R, 0 < b -> 1e-300 <= Rpower b e <= 1e300 ->
    Rabs (pw b e - Rpower b e) <= eta * Rpower b e.

(** [sq] has a relative error of at most [eta] where the exact square
    root is between 1e-300 and 1e300. *)
Definition approximates_sqrt (eta : R) (sq : R -> R) : Prop :=
  forall x : R, 0 < x -> 1e-300 <= sqrt x <= 1e300 ->
    Rabs (sq x - sqrt x) <= eta * sqrt x.

(** A rounding that is always 1e-10 too high, and a power and a square
    root that are always 1e-10 too low: one instance of the three error
    bounds. *)
Definition rnd_high (x : R) : R := x * (1 + 1e-10).
Definition pw_low (b e : R) : R := Rpower b e * (1 - 1e-10).
Definition sq_low (x : R) : R := sqrt x * (1 - 1e-10).

(** [x] and [y] are positive and the distance of their logarithms is at
    most [d]. *)
Definition near (d x y : R) : Prop :=
  0 < x /\ 0 < y /\ Rabs (ln x - ln y) <= d.

(** ** Reading aids for the results *)

(** The design driver of the current mode. *)
Definition driver (st : AppState) : R :=
  match mode st with friction => frictionIP st | velocity => velocityIP st end.

(** The value derived from the diameter in the current mode. *)
Definition derived (st : AppState) : R :=
  match mode st with friction => resultVelocity st | velocity => resultFriction st end.

(** * Properties *)

(** ** Basic facts about the primitives *)

Lemma nonpos_true (a : R) : a <= 0 -> nonpos a = true.
Proof. intros H. unfold nonpos. destruct (Rle_dec a 0); [reflexivity | contradiction]. Qed.

Lemma nonpos_false (a : R) : 0 < a -> nonpos a = false.
Proof. intros H. unfold nonpos. destruct (Rle_dec a 0); [lra | reflexivity]. Qed.

Lemma Math_pow_pos_base (b e : R) : 0 < b -> Math_pow b e = Rpower b e.
Proof. intros H. unfold Math_pow. destruct (Rlt_dec 0 b); [reflexivity | contradiction]. Qed.

Lemma Rpower_pos (b e : R) : 0 < Rpower b e.
Proof. unfold Rpower. apply exp_pos. Qed.

Lemma Math_pow_pos (b e : R) : 0 < b -> 0 < Math_pow b e.
Proof. intros H. rewrite Math_pow_pos_base by assumption. apply Rpower_pos. Qed.

Lemma Math_pow_square (b : R) : 0 < b -> Math_pow b 2 = b * b.
Proof.
  intros H. rewrite Math_pow_pos_base by assumption.
  change 2 with (INR 2). rewrite Rpower_pow by assumption. simpl. ring.
Qed.

(** The argument of the outer [Math.pow] in [solveDiaByFriction]. *)
Lemma solveDiaByFriction_base_pos (cfm friction : R) :
  0 < cfm -> 0 < friction -> 0 < (0.109136 * Math_pow cfm 1.9) / friction.
Proof.
  intros Hc Hf. apply Rdiv_lt_0_compat; [| assumption].
  apply Rmult_lt_0_compat; [lra | apply Math_pow_pos; assumption].
Qed.

Lemma solveDiaByFriction_pos (cfm friction : R) :
  0 < cfm -> 0 < friction -> 0 < solveDiaByFriction cfm friction.
Proof.
  intros Hc Hf. unfold solveDiaByFriction.
  rewrite (nonpos_false cfm), (nonpos_false friction) by assumption. simpl.
  apply Math_pow_pos, solveDiaByFriction_base_pos; assumption.
Qed.

Lemma solveDiaByVelocity_pos (cfm fpm : R) :
  0 < cfm -> 0 < fpm -> 0 < solveDiaByVelocity cfm fpm.
Proof.
  intros Hc Hf. unfold solveDiaByVelocity.
  rewrite (nonpos_false cfm), (nonpos_false fpm) by assumption. simpl.
  assert (0 < sqrt (cfm / fpm / PI)).
  { apply sqrt_lt_R0. apply Rdiv_lt_0_compat; [| apply PI_RGT_0].
    apply Rdiv_lt_0_compat; assumption. }
  lra.
Qed.

(** ** Round trips *)

Lemma calcFriction_solveDiaByFriction (cfm friction : R) :
  0 < cfm -> 0 < friction ->
  calcFriction cfm (solveDiaByFriction cfm friction) = friction.
Proof.
  intros Hc Hf.
  pose proof (solveDiaByFriction_pos cfm friction Hc Hf) as HD.
  unfold calcFriction.
  rewrite (nonpos_false _ HD), (nonpos_false cfm Hc). simpl.
  rewrite (Math_pow_pos_base _ 5.02 HD).
  unfold solveDiaByFriction.
  rewrite (nonpos_false cfm), (nonpos_false friction) by assumption. simpl.
  pose proof (solveDiaByFriction_base_pos cfm friction Hc Hf) as HB.
  rewrite (Math_pow_pos_base _ (1 / 5.02) HB).
  rewrite Rpower_mult.
  replace (1 / 5.02 * 5.02) with 1 by lra.
  rewrite Rpower_1 by assumption.
  pose proof (Math_pow_pos cfm 1.9 Hc) as HP.
  field. split; lra.
Qed.

Lemma calcVelocity_solveDiaByVelocity (cfm fpm : R) :
  0 < cfm -> 0 < fpm ->
  calcVelocity cfm (solveDiaByVelocity cfm fpm) = fpm.
Proof.
  intros Hc Hf.
  pose proof (solveDiaByVelocity_pos cfm fpm Hc Hf) as HD.
  unfold calcVelocity. rewrite (nonpos_false _ HD). cbv zeta.
  rewrite Math_pow_square by lra.
  unfold solveDiaByVelocity.
  rewrite (nonpos_false cfm), (nonpos_false fpm) by assumption. cbv zeta. simpl orb.
  cbv iota.
  pose proof PI_RGT_0 as Hpi.
  assert (Ha : 0 <= cfm / fpm / PI).
  { apply Rlt_le. apply Rdiv_lt_0_compat; [| assumption].
    apply Rdiv_lt_0_compat; assumption. }
  replace (2 * sqrt (cfm / fpm / PI) * 12 / 24) with (sqrt (cfm / fpm / PI)) by lra.
  rewrite sqrt_sqrt by assumption.
  field. repeat split; lra.
Qed.

(** ** The scan loop *)

Lemma visited_here (x : R) : x <= 150 -> visited x x.
Proof. intros H. exists 0%nat. simpl. split; lra. Qed.

Lemma visited_next (x y : R) : visited (x + 0.5) y -> visited x y.
Proof.
  intros [j [Hy Hle]]. exists (S j). rewrite S_INR. split; lra.
Qed.

Lemma visited_inv (x y : R) : visited x y -> y = x \/ visited (x + 0.5) y.
Proof.
  intros [[| j] [Hy Hle]].
  - left. simpl in Hy. lra.
  - right. exists j. rewrite S_INR in Hy. split; lra.
Qed.

Lemma visited_ge (x y : R) : visited x y -> x <= y.
Proof. intros [j [Hy _]]. pose proof (pos_INR j). lra. Qed.

Lemma visited_le_150 (x y : R) : visited x y -> y <= 150.
Proof. intros [j [_ Hle]]. exact Hle. Qed.

Lemma INR_296 : INR 296 = 296.
Proof. rewrite INR_IZR_INZ. reflexivity. Qed.

Lemma scanPoint_visited (y : R) : scanPoint y <-> visited 2 y.
Proof.
  split.
  - intros [j [Hj Hy]]. exists j. split; [assumption |].
    apply le_INR in Hj. rewrite INR_296 in Hj. lra.
  - intros [j [Hy Hle]]. exists j. split; [| assumption].
    apply INR_le. rewrite INR_296. lra.
Qed.

Create HintDb scan.
#[local] Hint Resolve visited_here visited_next : scan.

Section ScanLoop.

Variables targetDia knownSide : R.

(** One turn of the loop: the candidate [x] replaces the best exactly when
    its difference is strictly below [minDiff]. *)
Lemma rectScan_step (x minDiff bestSide : R) :
  rectScan targetDia knownSide x minDiff bestSide =
  if Rle_dec x 150 then
    if Rlt_dec (scanDiff targetDia knownSide x) minDiff
    then rectScan targetDia knownSide (x + 0.5) (scanDiff targetDia knownSide x) x
    else rectScan targetDia knownSide (x + 0.5) minDiff bestSide
  else bestSide.
Proof.
  rewrite rectScan_equation_1.
  destruct (Rle_dec x 150) as [Hx | Hx]; simpl; [| reflexivity].
  destruct (Rlt_dec (scanDiff targetDia knownSide x) minDiff); reflexivity.
Qed.

(** Past the bound nothing is visited. *)
Lemma outcome_exit (x m b : R) :
  ~ x <= 150 -> scanOutcome targetDia knownSide x m b b.
Proof.
  intros Hx. left. split; [reflexivity |].
  intros y Hy. pose proof (visited_ge _ _ Hy). apply visited_le_150 in Hy. lra.
Qed.

(** The candidate [x] replaced the best. *)
Lemma outcome_replace (x m b r : R) :
  x <= 150 -> scanDiff targetDia knownSide x < m ->
  scanOutcome targetDia knownSide (x + 0.5) (scanDiff targetDia knownSide x) x r ->
  scanOutcome targetDia knownSide x m b r.
Proof.
  intros Hx Hd [[Hr Hall] | (Hv & Hlt & Hmin & Hfirst)]; right.
  - rewrite Hr. repeat split; auto with scan.
    + intros y Hy. destruct (visited_inv _ _ Hy) as [-> | Hy']; [lra | auto].
    + intros y Hy Hyx. pose proof (visited_ge _ _ Hy). lra.
  - repeat split; auto with scan; try lra.
    + intros y Hy. destruct (visited_inv _ _ Hy) as [-> | Hy']; [lra | auto].
    + intros y Hy Hyr. destruct (visited_inv _ _ Hy) as [-> | Hy']; [lra | auto].
Qed.

(** The candidate [x] was passed over. *)
Lemma outcome_keep (x m b r : R) :
  x <= 150 -> ~ scanDiff targetDia knownSide x < m ->
  scanOutcome targetDia knownSide (x + 0.5) m b r ->
  scanOutcome targetDia knownSide x m b r.
Proof.
  intros Hx Hd [[Hr Hall] | (Hv & Hlt & Hmin & Hfirst)].
  - left. split; [assumption |].
    intros y Hy. destruct (visited_inv _ _ Hy) as [-> | Hy']; [lra | auto].
  - right. repeat split; auto with scan.
    + intros y Hy. destruct (visited_inv _ _ Hy) as [-> | Hy']; [lra | auto].
    + intros y Hy Hyr. destruct (visited_inv _ _ Hy) as [-> | Hy']; [lra | auto].
Qed.

End ScanLoop.

(** The invariant, by induction along the calls of the loop. *)
Lemma rectScan_outcome (t k x m b : R) :
  scanOutcome t k x m b (rectScan t k x m b).
Proof.
  funelim (rectScan t k x m b).
  - apply outcome_exit; assumption.
  - eapply outcome_replace; eassumption.
  - eapply outcome_keep; eassumption.
Qed.

(** ** Results of [solveRectDimension] *)

Lemma solveRectDimension_guard (t k : R) :
  t <= 0 \/ k <= 0 -> solveRectDimension t k = 0.
Proof.
  intros [H | H]; unfold solveRectDimension.
  - rewrite (nonpos_true t H). reflexivity.
  - rewrite (nonpos_true k H), orb_true_r. reflexivity.
Qed.

Lemma solveRectDimension_scan (t k : R) :
  0 < t -> 0 < k -> solveRectDimension t k = rectScan t k 2 1000 0.
Proof.
  intros Ht Hk. unfold solveRectDimension.
  rewrite (nonpos_false t Ht), (nonpos_false k Hk). reflexivity.
Qed.

(** No scan point comes within 1000 of the target: the result is 0. *)
Lemma solveRectDimension_out_of_reach (t k : R) :
  (forall y, scanPoint y -> 1000 <= scanDiff t k y) ->
  solveRectDimension t k = 0.
Proof.
  intros Hfar.
  destruct (Rle_dec t 0) as [Ht | Ht];
    [apply solveRectDimension_guard; left; assumption |].
  destruct (Rle_dec k 0) as [Hk | Hk];
    [apply solveRectDimension_guard; right; assumption |].
  rewrite solveRectDimension_scan by lra.
  destruct (rectScan_outcome t k 2 1000 0) as [[Hr _] | (Hv & Hlt & _)];
    [assumption |].
  apply scanPoint_visited in Hv. specialize (Hfar _ Hv). lra.
Qed.

(** Some scan point comes within 1000 of the target: the result is the first
    scan point of least difference. *)
Lemma solveRectDimension_best (t k : R) :
  0 < t -> 0 < k ->
  (exists y, scanPoint y /\ scanDiff t k y < 1000) ->
  let r := solveRectDimension t k in
  scanPoint r
  /\ (forall y, scanPoint y -> scanDiff t k r <= scanDiff t k y)
  /\ (forall y, scanPoint y -> y < r -> scanDiff t k r < scanDiff t k y).
Proof.
  intros Ht Hk [y0 [Hy0 Hd0]] r. unfold r.
  rewrite solveRectDimension_scan by assumption.
  destruct (rectScan_outcome t k 2 1000 0) as [[_ Hall] | (Hv & Hlt & Hmin & Hfirst)].
  - apply scanPoint_visited in Hy0. specialize (Hall _ Hy0). lra.
  - split; [apply scanPoint_visited; assumption |].
    split; intros y Hy; apply scanPoint_visited in Hy; auto.
Qed.

Lemma scanPoint_range (y : R) : scanPoint y -> 2 <= y <= 150.
Proof.
  intros H. pose proof (visited_ge 2 y) as Hge.
  apply scanPoint_visited in H. specialize (Hge H).
  destruct H as [j [_ Hle]]. lra.
Qed.

(** C10: [solveRectDimension] returns 0 or a value [2 + 0.5 * k] with
    [k <= 296]; a non-zero result lies in [[2, 150]] and is a multiple of
    0.5. *)
Theorem solveRectDimension_range (targetDia knownSide : R) :
  let r := solveRectDimension targetDia knownSide in
  (r = 0 \/ exists k : nat, (0 <= k <= 296)%nat /\ r = 2 + 0.5 * INR k)
  /\ (r <> 0 -> 2 <= r <= 150 /\ exists n : nat, r = 0.5 * INR n).
Proof.
  intros r.
  assert (H : r = 0 \/ scanPoint r).
  { unfold r.
    destruct (Rle_dec targetDia 0) as [Ht | Ht];
      [left; apply solveRectDimension_guard; left; assumption |].
    destruct (Rle_dec knownSide 0) as [Hk | Hk];
      [left; apply solveRectDimension_guard; right; assumption |].
    rewrite solveRectDimension_scan by lra.
    destruct (rectScan_outcome targetDia knownSide 2 1000 0)
      as [[Hr _] | (Hv & _)]; [left; assumption |].
    right. apply scanPoint_visited. assumption. }
  split.
  - destruct H as [H | [j [Hj Hr]]]; [left; assumption |].
    right. exists j. split; [lia | assumption].
  - intros Hnz. destruct H as [H | H]; [contradiction |].
    split; [apply scanPoint_range; assumption |].
    destruct H as [j [_ Hr]]. exists (4 + j)%nat.
    rewrite plus_INR. simpl INR. lra.
Qed.

(** A crude bound on the equivalent diameter: both powers are taken of
    numbers that are at least 1. *)
Lemma calcDe_le_product (k x : R) :
  1 <= k * x -> 1 <= k + x -> 0 < calcDe k x <= 1.30 * (k * x).
Proof.
  intros Hp Hs. unfold calcDe. cbv zeta.
  rewrite !Math_pow_pos_base by lra.
  assert (Htop : Rpower (k * x) 0.625 <= k * x).
  { rewrite <- (Rpower_1 (k * x)) at 2 by lra. apply Rle_Rpower; lra. }
  assert (Hbot : 1 <= Rpower (k + x) 0.25).
  { rewrite <- (Rpower_O (k + x)) by lra. apply Rle_Rpower; lra. }
  pose proof (Rpower_pos (k * x) 0.625) as Htp.
  assert (Hq : 0 < Rpower (k * x) 0.625 / Rpower (k + x) 0.25
               <= Rpower (k * x) 0.625).
  { split.
    - apply Rdiv_lt_0_compat; lra.
    - assert (Hinv : / Rpower (k + x) 0.25 <= 1).
      { rewrite <- Rinv_1. apply Rinv_le_contravar; lra. }
      unfold Rdiv. rewrite <- (Rmult_1_r (Rpower (k * x) 0.625)) at 2.
      apply Rmult_le_compat_l; lra. }
  lra.
Qed.

Lemma not_scanPoint_0 : ~ scanPoint 0.
Proof. intros H. apply scanPoint_range in H. lra. Qed.

(** C4 at the input [(2000, 1)]: every equivalent diameter of the scan is
    below 195, no difference is below the initial [minDiff] of 1000,
    and the search returns 0, which is not a scan point. *)
Theorem solveRectDimension_2000_1 :
  solveRectDimension 2000 1 = 0
  /\ ~ scanPoint (solveRectDimension 2000 1)
  /\ (forall y, scanPoint y -> 1000 < scanDiff 2000 1 y).
Proof.
  assert (Hfar : forall y, scanPoint y -> 1000 < scanDiff 2000 1 y).
  { intros y Hy. apply scanPoint_range in Hy.
    destruct (calcDe_le_product 1 y) as [_ Hde]; [lra | lra |].
    unfold scanDiff. rewrite Rabs_left by lra. lra. }
  assert (H0 : solveRectDimension 2000 1 = 0).
  { apply solveRectDimension_out_of_reach. intros y Hy.
    apply Rlt_le. apply Hfar. assumption. }
  split; [assumption |]. split; [| assumption].
  rewrite H0. apply not_scanPoint_0.
Qed.

(** ** Zero guards *)

(** A guard [a <= 0 || b <= 0] taken on either side. *)
Ltac zero_guard :=
  let H := fresh "H" in
  intros [H | H]; rewrite (nonpos_true _ H), ?orb_true_r; reflexivity.

Lemma solveDiaByFriction_guard (cfm friction : R) :
  cfm <= 0 \/ friction <= 0 -> solveDiaByFriction cfm friction = 0.
Proof. unfold solveDiaByFriction. zero_guard. Qed.

Lemma solveDiaByVelocity_guard (cfm fpm : R) :
  cfm <= 0 \/ fpm <= 0 -> solveDiaByVelocity cfm fpm = 0.
Proof. unfold solveDiaByVelocity. zero_guard. Qed.

Lemma calcFriction_guard (cfm diaInches : R) :
  diaInches <= 0 \/ cfm <= 0 -> calcFriction cfm diaInches = 0.
Proof. unfold calcFriction. zero_guard. Qed.

Lemma calcVelocity_guard (cfm diaInches : R) :
  diaInches <= 0 -> calcVelocity cfm diaInches = 0.
Proof.
  intros H. unfold calcVelocity. rewrite (nonpos_true diaInches H). reflexivity.
Qed.

(** Past its guard [calcVelocity] is [cfm] over the area, whatever the
    sign of [cfm]. *)
Lemma calcVelocity_value (cfm diaInches : R) :
  0 < diaInches ->
  calcVelocity cfm diaInches = cfm / (PI * (diaInches / 24 * (diaInches / 24))).
Proof.
  intros H. unfold calcVelocity. rewrite (nonpos_false diaInches H). cbv zeta.
  rewrite Math_pow_square by lra. reflexivity.
Qed.


(** C3 as stated, refuted at [calcVelocity(-1000, 12)]: the airflow is
    not positive, yet the result is [-4000 / PI], a negative number. *)
Theorem calcVelocity_negative_airflow :
  calcVelocity (-1000) 12 = -4000 / PI /\ calcVelocity (-1000) 12 < 0.
Proof.
  pose proof PI_RGT_0 as Hpi.
  assert (E : calcVelocity (-1000) 12 = -4000 / PI).
  { rewrite calcVelocity_value by lra. field. lra. }
  split; [assumption |]. rewrite E.
  assert (Hinv : 0 < / PI) by (apply Rinv_0_lt_compat; assumption).
  unfold Rdiv. nra.
Qed.

(** C3, amended: when either argument is non-positive,
    [solveDiaByFriction], [solveDiaByVelocity], [calcFriction] and
    [solveRectDimension] return exactly 0; [calcVelocity] returns exactly 0
    when the diameter is non-positive, its only guard, and also at its only
    call, where the diameter is [solveDiaByFriction] of the same airflow. *)
Theorem zero_guard_totality (a b : R) :
  a <= 0 \/ b <= 0 ->
  solveDiaByFriction a b = 0
  /\ solveDiaByVelocity a b = 0
  /\ calcFriction a b = 0
  /\ solveRectDimension a b = 0
  /\ (b <= 0 -> calcVelocity a b = 0)
  /\ calcVelocity a (solveDiaByFriction a b) = 0.
Proof.
  intros H.
  split; [apply solveDiaByFriction_guard; assumption |].
  split; [apply solveDiaByVelocity_guard; assumption |].
  split; [apply calcFriction_guard; tauto |].
  split; [apply solveRectDimension_guard; assumption |].
  split; [apply calcVelocity_guard |].
  rewrite solveDiaByFriction_guard by assumption.
  apply calcVelocity_guard. lra.
Qed.

Lemma zero_guard_totality_witness :
  solveDiaByFriction (-1000) 12 = 0
  /\ calcVelocity (-1000) (solveDiaByFriction (-1000) 12) = 0.
Proof.
  destruct (zero_guard_totality (-1000) 12) as (H1 & _ & _ & _ & _ & H2);
    [left; lra |].
  split; [exact H1 | exact H2].
Defined.

(** ** Round trips under rounding errors *)

(** The round trips are exact in real arithmetic
    ([calcFriction_solveDiaByFriction], [calcVelocity_solveDiaByVelocity]).
    What follows bounds them under rounding, by the distance of the
    logarithms of the computed and the exact values. *)

Lemma ln_le_mono (x y : R) : 0 < x -> x <= y -> ln x <= ln y.
Proof.
  intros Hx [H | H]; [apply Rlt_le, ln_increasing; assumption | subst; lra].
Qed.

Lemma exp_le_mono (x y : R) : x <= y -> exp x <= exp y.
Proof. intros [H | H]; [apply Rlt_le, exp_increasing; assumption | subst; lra]. Qed.

Lemma near_nonneg (d x y : R) : near d x y -> 0 <= d.
Proof. intros (_ & _ & H). pose proof (Rabs_pos (ln x - ln y)). lra. Qed.

Lemma near_refl (x : R) : 0 < x -> near 0 x x.
Proof.
  intros H. repeat split; try assumption.
  replace (ln x - ln x) with 0 by ring. rewrite Rabs_R0. lra.
Qed.

Lemma near_weaken (d d' x y : R) : near d x y -> d <= d' -> near d' x y.
Proof. intros (Hx & Hy & H) Hd. repeat split; try assumption. lra. Qed.

Lemma near_trans (d1 d2 x y z : R) :
  near d1 x y -> near d2 y z -> near (d1 + d2) x z.
Proof.
  intros (Hx & Hy & H1) (_ & Hz & H2). repeat split; try assumption.
  replace (ln x - ln z) with ((ln x - ln y) + (ln y - ln z)) by ring.
  eapply Rle_trans; [apply Rabs_triang | lra].
Qed.

Lemma near_mult (d1 d2 x1 y1 x2 y2 : R) :
  near d1 x1 y1 -> near d2 x2 y2 -> near (d1 + d2) (x1 * x2) (y1 * y2).
Proof.
  intros (Hx1 & Hy1 & H1) (Hx2 & Hy2 & H2).
  repeat split; try (apply Rmult_lt_0_compat; assumption).
  rewrite !ln_mult by assumption.
  replace (ln x1 + ln x2 - (ln y1 + ln y2))
    with ((ln x1 - ln y1) + (ln x2 - ln y2)) by ring.
  eapply Rle_trans; [apply Rabs_triang | lra].
Qed.

Lemma ln_div (x y : R) : 0 < x -> 0 < y -> ln (x / y) = ln x - ln y.
Proof.
  intros Hx Hy. unfold Rdiv.
  rewrite ln_mult by (try apply Rinv_0_lt_compat; assumption).
  rewrite ln_Rinv by assumption. ring.
Qed.

Lemma near_div (d1 d2 x1 y1 x2 y2 : R) :
  near d1 x1 y1 -> near d2 x2 y2 -> near (d1 + d2) (x1 / x2) (y1 / y2).
Proof.
  intros (Hx1 & Hy1 & H1) (Hx2 & Hy2 & H2).
  repeat split; try (apply Rdiv_lt_0_compat; assumption).
  rewrite !ln_div by assumption.
  replace (ln x1 - ln x2 - (ln y1 - ln y2))
    with ((ln x1 - ln y1) + - (ln x2 - ln y2)) by ring.
  eapply Rle_trans; [apply Rabs_triang |]. rewrite Rabs_Ropp. lra.
Qed.

Lemma near_Rpower (d x y e : R) :
  0 <= e -> near d x y -> near (e * d) (Rpower x e) (Rpower y e).
Proof.
  intros He (Hx & Hy & H). repeat split; try apply exp_pos.
  rewrite !ln_Rpower. replace (e * ln x - e * ln y) with (e * (ln x - ln y)) by ring.
  rewrite Rabs_mult, (Rabs_right e) by lra.
  apply Rmult_le_compat_l; assumption.
Qed.

Lemma near_sqrt (d x y : R) : near d x y -> near (/ 2 * d) (sqrt x) (sqrt y).
Proof.
  intros H. pose proof H as (Hx & Hy & _).
  rewrite <- !Rpower_sqrt by assumption. apply near_Rpower; [lra | assumption].
Qed.

Lemma near_Rpower_exp (x e e' L delta : R) :
  0 < x -> Rabs (ln x) <= L -> Rabs (e - e') <= delta ->
  near (L * delta) (Rpower x e) (Rpower x e').
Proof.
  intros Hx HL He. repeat split; try apply exp_pos.
  rewrite !ln_Rpower. replace (e * ln x - e' * ln x) with (ln x * (e - e')) by ring.
  rewrite Rabs_mult.
  pose proof (Rabs_pos (ln x)). pose proof (Rabs_pos (e - e')).
  apply Rmult_le_compat; assumption.
Qed.

(** A relative error of [eta] is a logarithmic distance of at most [2 * eta]. *)
Lemma rel_near (eta x y : R) :
  0 <= eta <= / 2 -> 0 < y -> Rabs (x - y) <= eta * y -> near (2 * eta) x y.
Proof.
  intros [He He'] Hy H.
  assert (Hb : y - eta * y <= x <= y + eta * y).
  { destruct (Rcase_abs (x - y)) as [Hn | Hp].
    - rewrite Rabs_left in H by assumption. nra.
    - rewrite Rabs_right in H by assumption. nra. }
  assert (Hx : 0 < x) by nra.
  repeat split; try assumption.
  apply Rabs_le. split.
  - (* ln y <= ln x + 2 eta *)
    assert (Hle : y <= x * exp (2 * eta)).
    { pose proof (exp_ineq1_le (2 * eta)) as He2.
      apply Rle_trans with (x * (1 + 2 * eta)); [nra |].
      apply Rmult_le_compat_l; lra. }
    apply ln_le_mono in Hle; [| assumption].
    rewrite ln_mult, ln_exp in Hle by (try apply exp_pos; assumption). lra.
  - assert (Hle : x <= y * exp eta).
    { pose proof (exp_ineq1_le eta) as He1.
      apply Rle_trans with (y * (1 + eta)); [nra |].
      apply Rmult_le_compat_l; lra. }
    apply ln_le_mono in Hle; [| assumption].
    rewrite ln_mult, ln_exp in Hle by (try apply exp_pos; assumption). lra.
Qed.

(** A logarithmic distance of [d] is a relative error of at most [2 * d]. *)
Lemma near_rel (d x y : R) :
  near d x y -> d <= / 2 -> y * (1 - d) <= x <= y * (1 + 2 * d).
Proof.
  intros H Hd. pose proof (near_nonneg _ _ _ H) as Hd0.
  destruct H as (Hx & Hy & H).
  assert (Hl : - d <= ln x - ln y <= d).
  { destruct (Rcase_abs (ln x - ln y)) as [Hn | Hp].
    - rewrite Rabs_left in H by assumption. lra.
    - rewrite Rabs_right in H by assumption. lra. }
  assert (Hem : 1 - d <= exp (- d)) by (pose proof (exp_ineq1_le (- d)); lra).
  split.
  - apply Rle_trans with (y * exp (- d)); [apply Rmult_le_compat_l; lra |].
    replace (y * exp (- d)) with (exp (ln y + - d))
      by (rewrite exp_plus, exp_ln by assumption; reflexivity).
    apply Rle_trans with (exp (ln x)); [apply exp_le_mono; lra |].
    rewrite exp_ln by assumption. lra.
  - assert (Hed : exp d <= 1 + 2 * d).
    { assert (Hinv : exp d = / exp (- d)).
      { rewrite exp_Ropp, Rinv_inv. reflexivity. }
      rewrite Hinv.
      apply Rle_trans with (/ (1 - d)).
      - apply Rinv_le_contravar; lra.
      - apply Rmult_le_reg_r with (1 - d); [lra |].
        rewrite Rinv_l by lra. nra. }
    apply Rle_trans with (y * exp d); [| apply Rmult_le_compat_l; lra].
    replace (y * exp d) with (exp (ln y + d))
      by (rewrite exp_plus, exp_ln by assumption; reflexivity).
    apply Rle_trans with (exp (ln x)); [rewrite exp_ln by assumption; lra |].
    apply exp_le_mono. lra.
Qed.

(** In particular the value is within a factor 2. *)
Lemma near_range (d x y : R) :
  near d x y -> d <= / 2 -> y / 2 <= x <= 2 * y.
Proof.
  intros H Hd. pose proof (near_nonneg _ _ _ H) as Hd0.
  destruct (near_rel _ _ _ H Hd) as [H1 H2]. destruct H as (_ & Hy & _).
  assert (Hyd : 0 <= y * d <= y * / 2)
    by (split; [apply Rmult_le_pos | apply Rmult_le_compat_l]; lra).
  split; lra.
Qed.

Section Steps.

Variables (eta : R) (rnd : R -> R) (pw : R -> R -> R) (sq : R -> R).
Hypothesis eta_small : 0 <= eta <= 1e-9.
Hypothesis rnd_ok : rounds eta rnd.
Hypothesis pw_ok : approximates_pow eta pw.
Hypothesis sq_ok : approximates_sqrt eta sq.

(** A value within [d] of [y], rounded, is within [d + 2 * eta] of [y]. *)
Lemma rnd_near (d x y : R) :
  near d x y -> d <= / 2 -> 2e-300 <= y <= 5e299 -> near (d + 2 * eta) (rnd x) y.
Proof.
  intros H Hd Hy. pose proof (near_nonneg _ _ _ H) as Hd0.
  pose proof (near_range _ _ _ H Hd) as Hb. pose proof H as (Hx & Hy0 & _).
  assert (Hr : 1e-300 <= x <= 1e300) by lra.
  apply near_weaken with (2 * eta + d); [| lra].
  apply near_trans with x; [| assumption].
  apply rel_near; [lra | assumption | apply rnd_ok; assumption].
Qed.

Lemma rnd_near_self (x : R) : 2e-300 <= x <= 5e299 -> near (2 * eta) (rnd x) x.
Proof.
  intros Hx. apply near_weaken with (0 + 2 * eta); [| lra].
  apply rnd_near; [apply near_refl; lra | lra | assumption].
Qed.

(** The same for [pw b e], when the exact power is within [d] of [y]. *)
Lemma pw_near (d b e y : R) :
  0 < b -> near d (Rpower b e) y -> d <= / 2 -> 2e-300 <= y <= 5e299 ->
  near (d + 2 * eta) (pw b e) y.
Proof.
  intros Hb H Hd Hy. pose proof (near_nonneg _ _ _ H) as Hd0.
  pose proof (near_range _ _ _ H Hd) as Hbd. pose proof H as (Hx & Hy0 & _).
  assert (Hr : 1e-300 <= Rpower b e <= 1e300) by lra.
  apply near_weaken with (2 * eta + d); [| lra].
  apply near_trans with (Rpower b e); [| assumption].
  apply rel_near; [lra | assumption | apply pw_ok; assumption].
Qed.

(** The same for [sq x], when the exact square root is within [d] of [y]. *)
Lemma sq_near (d x y : R) :
  0 < x -> near d (sqrt x) y -> d <= / 2 -> 2e-300 <= y <= 5e299 ->
  near (d + 2 * eta) (sq x) y.
Proof.
  intros Hb H Hd Hy. pose proof (near_nonneg _ _ _ H) as Hd0.
  pose proof (near_range _ _ _ H Hd) as Hbd. pose proof H as (Hx & Hy0 & _).
  assert (Hr : 1e-300 <= sqrt x <= 1e300) by lra.
  apply near_weaken with (2 * eta + d); [| lra].
  apply near_trans with (sqrt x); [| assumption].
  apply rel_near; [lra | assumption | apply sq_ok; assumption].
Qed.

End Steps.

Lemma Rpower_2_sqrt (t : R) : 0 < t -> Rpower (sqrt t) 2 = t.
Proof.
  intros Ht. assert (Hs : 0 < sqrt t) by (apply sqrt_lt_R0; assumption).
  change 2 with (INR 2). rewrite Rpower_pow by assumption.
  simpl. rewrite Rmult_1_r. apply sqrt_sqrt. lra.
Qed.

Lemma sqrt_bounds (lo hi t : R) :
  0 <= lo -> 0 <= hi -> lo * lo <= t <= hi * hi -> lo <= sqrt t <= hi.
Proof.
  intros Hlo Hhi [H1 H2]. split.
  - rewrite <- (sqrt_square lo) by assumption. apply sqrt_le_1_alt. assumption.
  - rewrite <- (sqrt_square hi) by assumption. apply sqrt_le_1_alt. assumption.
Qed.

Lemma div_bounds (x y lo hi : R) :
  0 < y -> lo * y <= x <= hi * y -> lo <= x / y <= hi.
Proof.
  intros Hy [H1 H2].
  split; apply Rmult_le_reg_r with y; try assumption;
    replace (x / y * y) with x by (field; lra); assumption.
Qed.

(** C2, amended: for an airflow and a velocity from 1e-6 to 1e12, with a
    rounding, a [Math.pow] and a [Math.sqrt] of relative error at most
    1e-10, [calcVelocity] at the diameter solved by [solveDiaByVelocity]
    gives back the velocity within a relative tolerance of 1e-6. *)
Theorem roundtrip_velocity
  (eta : R) (rnd : R -> R) (pw : R -> R -> R) (sq : R -> R) (cfm velocity : R) :
  0 <= eta <= 1e-10 ->
  rounds eta rnd -> approximates_pow eta pw -> approximates_sqrt eta sq ->
  1e-6 <= cfm <= 1e12 -> 1e-6 <= velocity <= 1e12 ->
  let D := Rounded.solveDiaByVelocity rnd sq cfm velocity in
  Rabs (Rounded.calcVelocity rnd pw cfm D - velocity) <= 1e-6 * velocity.
Proof.
  intros He0 Hr Hp Hq Hc Hv D.
  assert (He : 0 <= eta <= 1e-9) by lra.
  unfold D, Rounded.solveDiaByVelocity.
  rewrite (nonpos_false cfm), (nonpos_false velocity) by lra. simpl orb. cbv iota zeta.
  pose proof PI2_3_2 as Hpi1. pose proof PI_4 as Hpi2.
  set (a := cfm / velocity).
  assert (Ha : 1e-18 <= a <= 1e18).
  { apply div_bounds; lra. }
  set (t := a / PI).
  assert (Ht : 1e-19 <= t <= 1e18).
  { apply div_bounds; lra. }
  set (s := sqrt t).
  assert (Hs : 1e-10 <= s <= 1e9) by (apply sqrt_bounds; lra).
  pose proof (rnd_near_self eta rnd He Hr PI ltac:(lra)) as HP.
  pose proof (rnd_near_self eta rnd He Hr a ltac:(lra)) as H1.
  pose proof (near_div _ _ _ _ _ _ H1 HP) as H2. fold t in H2.
  pose proof (rnd_near eta rnd He Hr _ _ _ H2 ltac:(lra) ltac:(lra)) as H3.
  pose proof (near_sqrt _ _ _ H3) as H4. fold s in H4.
  pose proof (sq_near eta sq He Hq _ _ _ (proj1 H3) H4 ltac:(lra) ltac:(lra)) as H5.
  pose proof (near_mult _ _ _ _ _ _ (near_refl 2 ltac:(lra)) H5) as H6.
  pose proof (rnd_near eta rnd He Hr _ _ _ H6 ltac:(lra) ltac:(lra)) as H7.
  pose proof (near_mult _ _ _ _ _ _ H7 (near_refl 12 ltac:(lra))) as H8.
  pose proof (rnd_near eta rnd He Hr _ _ _ H8 ltac:(lra) ltac:(lra)) as H9.
  set (dia := rnd (rnd (2 * sq (rnd (rnd a / rnd PI))) * 12)) in *.
  assert (Hd : 0 < dia) by apply H9.
  unfold Rounded.calcVelocity. rewrite (nonpos_false dia Hd). cbv zeta.
  pose proof (near_div _ _ _ _ _ _ H9 (near_refl 24 ltac:(lra))) as H10.
  replace (2 * s * 12 / 24) with s in H10 by lra.
  pose proof (rnd_near eta rnd He Hr _ _ _ H10 ltac:(lra) ltac:(lra)) as H11.
  pose proof (near_Rpower _ _ _ 2 ltac:(lra) H11) as H12.
  unfold s in H12. rewrite Rpower_2_sqrt in H12 by lra.
  pose proof (pw_near eta pw He Hp _ _ _ _ (proj1 H11) H12 ltac:(lra) ltac:(lra)) as H13.
  pose proof (near_mult _ _ _ _ _ _ HP H13) as H14.
  replace (PI * t) with a in H14 by (unfold t; field; lra).
  pose proof (rnd_near eta rnd He Hr _ _ _ H14 ltac:(lra) ltac:(lra)) as H15.
  pose proof (near_div _ _ _ _ _ _ (near_refl cfm ltac:(lra)) H15) as H16.
  replace (cfm / a) with velocity in H16 by (unfold a; field; lra).
  pose proof (rnd_near eta rnd He Hr _ _ _ H16 ltac:(lra) ltac:(lra)) as H17.
  apply near_rel in H17; [| lra].
  assert (Hev : 0 <= eta * velocity <= 1e-10 * velocity)
    by (split; [apply Rmult_le_pos | apply Rmult_le_compat_r]; lra).
  apply Rabs_le. lra.
Qed.

Lemma Rpower_crude (a b x e : R) (n : nat) :
  0 < a <= 1 -> 1 <= b -> a <= x <= b -> 0 <= e <= INR n ->
  a ^ n <= Rpower x e <= b ^ n.
Proof.
  intros [Ha Ha1] Hb [Hax Hxb] [He Hen]. split.
  - rewrite <- Rpower_pow by assumption.
    apply Rle_trans with (Rpower a e).
    + unfold Rpower. apply exp_le_mono.
      assert (Hln : ln a <= 0) by (rewrite <- ln_1; apply ln_le_mono; lra).
      nra.
    + apply Rle_Rpower_l; lra.
  - rewrite <- Rpower_pow by lra.
    apply Rle_trans with (Rpower b e).
    + apply Rle_Rpower_l; lra.
    + apply Rle_Rpower; lra.
Qed.

Lemma ln_2_le_1 : ln 2 <= 1.
Proof.
  rewrite <- (ln_exp 1). apply ln_le_mono; [lra |].
  pose proof (exp_ineq1_le 1). lra.
Qed.

Lemma ln_abs_bound (x : R) (n : nat) :
  / 2 ^ n <= x <= 2 ^ n -> Rabs (ln x) <= INR n.
Proof.
  intros [Hlo Hhi].
  assert (Hp : 0 < 2 ^ n) by (apply pow_lt; lra).
  assert (Hi : 0 < / 2 ^ n) by (apply Rinv_0_lt_compat; assumption).
  assert (Hx : 0 < x) by lra.
  pose proof ln_2_le_1 as H2. pose proof (pos_INR n) as Hn.
  assert (Hl : ln (2 ^ n) <= INR n).
  { rewrite ln_pow by lra. assert (0 < ln 2) by (pose proof ln_lt_2; lra). nra. }
  apply Rabs_le. split.
  - apply Rle_trans with (ln (/ 2 ^ n)); [rewrite ln_Rinv by assumption; lra |].
    apply ln_le_mono; assumption.
  - apply Rle_trans with (ln (2 ^ n)); [apply ln_le_mono; assumption | assumption].
Qed.

Lemma pow_2_101 : 2 ^ 101 = 2535301200456458802993406410752.
Proof. rewrite pow_IZR. apply f_equal. vm_compute. reflexivity. Qed.

(** C1, amended: for an airflow from 1e-6 to 1e12 and a friction rate from
    1e-6 to 1e6, with a rounding and a [Math.pow] of relative error at
    most 1e-10, [calcFriction] at the diameter solved by
    [solveDiaByFriction] gives back the friction rate within a relative
    tolerance of 1e-6. *)
Theorem roundtrip_friction (eta : R) (rnd : R -> R) (pw : R -> R -> R)
  (cfm frictionRate : R) :
  0 <= eta <= 1e-10 -> rounds eta rnd -> approximates_pow eta pw ->
  1e-6 <= cfm <= 1e12 -> 1e-6 <= frictionRate <= 1e6 ->
  let D := Rounded.solveDiaByFriction rnd pw cfm frictionRate in
  Rabs (Rounded.calcFriction rnd pw cfm D - frictionRate) <= 1e-6 * frictionRate.
Proof.
  intros He0 Hr Hp Hc Hf D.
  assert (He : 0 <= eta <= 1e-9) by lra.
  unfold D, Rounded.solveDiaByFriction.
  rewrite (nonpos_false cfm), (nonpos_false frictionRate) by lra. simpl orb. cbv iota.
  (* the literals *)
  pose proof (rnd_near_self eta rnd He Hr 0.109136 ltac:(lra)) as Hc1.
  pose proof (rnd_near_self eta rnd He Hr 1.9 ltac:(lra)) as He19.
  pose proof (rnd_near_self eta rnd He Hr 5.02 ltac:(lra)) as He502.
  pose proof (near_div _ _ _ _ _ _ (near_refl 1 ltac:(lra)) He502) as Hi0.
  pose proof (rnd_near eta rnd He Hr _ _ _ Hi0 ltac:(lra) ltac:(lra)) as Hei.
  pose proof (near_mult _ _ _ _ _ _ Hei He502) as Hprod.
  replace (1 / 5.02 * 5.02) with 1 in Hprod by lra.
  pose proof (near_rel _ _ _ He19 ltac:(lra)) as B19.
  pose proof (near_rel _ _ _ He502 ltac:(lra)) as B502.
  pose proof (near_rel _ _ _ Hei ltac:(lra)) as Bei.
  pose proof (near_rel _ _ _ Hprod ltac:(lra)) as Bprod.
  set (c := rnd 0.109136) in *. set (e19 := rnd 1.9) in *.
  set (e502 := rnd 5.02) in *. set (ei := rnd (1 / e502)) in *.
  (* the numerator *)
  set (A := Rpower cfm e19).
  assert (HA : 1e-12 <= A <= 1e24).
  { destruct (Rpower_crude 1e-6 1e12 cfm e19 2) as [H1 H2];
      [lra | lra | lra | simpl; lra |]. cbn [pow] in H1, H2. unfold A. lra. }
  pose proof (pw_near eta pw He Hp 0 cfm e19 A ltac:(lra)
                (near_refl A ltac:(lra)) ltac:(lra) ltac:(lra)) as Hp1.
  pose proof (near_mult _ _ _ _ _ _ Hc1 Hp1) as Hcp.
  pose proof (rnd_near eta rnd He Hr _ _ _ Hcp ltac:(lra) ltac:(lra)) as HN.
  pose proof (near_range _ _ _ HN ltac:(lra)) as BN.
  set (N := rnd (c * pw cfm e19)) in *.
  assert (HNr : 5e-14 <= N <= 2.2e23) by lra.
  (* the diameter *)
  assert (Hq0 : 5e-20 <= N / frictionRate <= 2.2e29) by (apply div_bounds; lra).
  pose proof (rnd_near_self eta rnd He Hr (N / frictionRate) ltac:(lra)) as Hq.
  pose proof (near_range _ _ _ Hq ltac:(lra)) as Bq.
  set (q := rnd (N / frictionRate)) in *.
  assert (Hqr : 2.5e-20 <= q <= 4.4e29) by lra.
  assert (Hlnq : Rabs (ln q) <= 101).
  { replace 101 with (INR 101) by (rewrite INR_IZR_INZ; reflexivity).
    apply ln_abs_bound. rewrite pow_2_101. lra. }
  set (Y := Rpower q ei).
  assert (HY : 2.5e-20 <= Y <= 4.4e29).
  { destruct (Rpower_crude 2.5e-20 4.4e29 q ei 1) as [H1 H2];
      [lra | lra | lra | simpl; lra |]. cbn [pow] in H1, H2. unfold Y. lra. }
  pose proof (pw_near eta pw He Hp 0 q ei Y ltac:(lra)
                (near_refl Y ltac:(lra)) ltac:(lra) ltac:(lra)) as HD.
  set (dia := pw q ei) in *.
  assert (Hdia : 0 < dia) by apply HD.
  unfold Rounded.calcFriction.
  rewrite (nonpos_false dia Hdia), (nonpos_false cfm) by lra. simpl orb. cbv iota.
  fold c e19 N e502.
  (* the denominator *)
  pose proof (near_Rpower _ _ _ e502 ltac:(lra) HD) as HZ.
  unfold Y in HZ. rewrite Rpower_mult in HZ.
  assert (HZ1 : near (101 * (12 * eta)) (Rpower q (ei * e502)) q).
  { rewrite <- (Rpower_1 q) at 2 by lra.
    apply near_Rpower_exp; [lra | assumption | apply Rabs_le; lra]. }
  pose proof (near_trans _ _ _ _ _ HZ HZ1) as HZ2.
  assert (HZ3 : near (1224 * eta) (Rpower dia e502) q).
  { assert (He6 : e502 * eta <= 6 * eta) by (apply Rmult_le_compat_r; lra).
    eapply near_weaken; [exact HZ2 | lra]. }
  pose proof (pw_near eta pw He Hp _ dia e502 q Hdia HZ3 ltac:(lra) ltac:(lra)) as HP.
  pose proof (near_trans _ _ _ _ _ HP Hq) as HP1.
  pose proof (near_div _ _ _ _ _ _ (near_refl N ltac:(lra)) HP1) as Hres.
  replace (N / (N / frictionRate)) with frictionRate in Hres by (field; lra).
  pose proof (rnd_near eta rnd He Hr _ _ _ Hres ltac:(lra) ltac:(lra)) as Hfin.
  apply near_rel in Hfin; [| lra].
  assert (Hev : 0 <= eta * frictionRate <= 1e-10 * frictionRate)
    by (split; [apply Rmult_le_pos | apply Rmult_le_compat_r]; lra).
  apply Rabs_le. lra.
Qed.

Lemma rounds_high : rounds 1e-10 rnd_high.
Proof.
  intros x Hx. unfold rnd_high.
  replace (x * (1 + 1e-10) - x) with (1e-10 * x) by ring.
  rewrite Rabs_right by nra. lra.
Qed.

Lemma approximates_pow_low : approximates_pow 1e-10 pw_low.
Proof.
  intros b e Hb Hx. unfold pw_low.
  replace (Rpower b e * (1 - 1e-10) - Rpower b e) with (- (1e-10 * Rpower b e)) by ring.
  rewrite Rabs_Ropp, Rabs_right by nra. lra.
Qed.

Lemma approximates_sqrt_low : approximates_sqrt 1e-10 sq_low.
Proof.
  intros x Hx Hs. unfold sq_low.
  replace (sqrt x * (1 - 1e-10) - sqrt x) with (- (1e-10 * sqrt x)) by ring.
  rewrite Rabs_Ropp, Rabs_right by nra. lra.
Qed.

Lemma roundtrip_velocity_witness :
  Rabs (Rounded.calcVelocity rnd_high pw_low 1000
          (Rounded.solveDiaByVelocity rnd_high sq_low 1000 1200) - 1200)
  <= 1e-6 * 1200.
Proof.
  apply (roundtrip_velocity 1e-10 rnd_high pw_low sq_low 1000 1200);
    [lra | apply rounds_high | apply approximates_pow_low
     | apply approximates_sqrt_low | lra | lra].
Defined.

Lemma roundtrip_friction_witness :
  Rabs (Rounded.calcFriction rnd_high pw_low 1000
          (Rounded.solveDiaByFriction rnd_high pw_low 1000 0.1) - 0.1)
  <= 1e-6 * 0.1.
Proof.
  apply (roundtrip_friction 1e-10 rnd_high pw_low 1000 0.1);
    [lra | apply rounds_high | apply approximates_pow_low | lra | lra].
Defined.

(** ** Aspect ratio *)

Lemma orOne_pos (v : R) : 0 <= v -> 0 < orOne v.
Proof. intros H. unfold orOne. destruct (Req_dec_T v 0); lra. Qed.

Lemma aspectRatio_ge_1 (a b : R) : 0 <= a -> 0 <= b -> 1 <= aspectRatio a b.
Proof.
  intros Ha Hb. unfold aspectRatio. cbv zeta.
  pose proof (orOne_pos a Ha) as Pa. pose proof (orOne_pos b Hb) as Pb.
  assert (Hmin : 0 < Rmin (orOne a) (orOne b)) by (apply Rmin_glb_lt; assumption).
  assert (Hle : Rmin (orOne a) (orOne b) <= Rmax (orOne a) (orOne b)).
  { apply Rle_trans with (orOne a); [apply Rmin_l | apply Rmax_l]. }
  apply Rmult_le_reg_r with (Rmin (orOne a) (orOne b)); [assumption |].
  unfold Rdiv. rewrite Rmult_assoc, Rinv_l by lra. lra.
Qed.

Lemma compliant_iff (a b : R) : compliant a b = true <-> aspectRatio a b <= 4.
Proof.
  unfold compliant, aspectWarning.
  destruct (Rlt_dec 4 (aspectRatio a b)); simpl; split; intros H;
    try reflexivity; try discriminate; lra.
Qed.

Lemma aspectRatio_4_16 : aspectRatio 4 16 = 4.
Proof.
  unfold aspectRatio, orOne. cbv zeta.
  destruct (Req_dec_T 4 0); [lra |]. destruct (Req_dec_T 16 0); [lra |].
  rewrite Rmax_right, Rmin_left by lra. lra.
Qed.

Lemma aspectRatio_4_20 : aspectRatio 4 20 = 5.
Proof.
  unfold aspectRatio, orOne. cbv zeta.
  destruct (Req_dec_T 4 0); [lra |]. destruct (Req_dec_T 20 0); [lra |].
  rewrite Rmax_right, Rmin_left by lra. lra.
Qed.

(** C5: for sides [a, b >= 0] the ratio is [max a' b' / min a' b'], where
    a side equal to 0 is replaced by 1; the ratio is at least 1; the verdict
    is compliant exactly when the ratio is at most 4; so the sides 4 and 16
    (ratio 4) are compliant and the sides 4 and 20 (ratio 5) are not. *)
Theorem evaluateAspect_contract (a b : R) :
  0 <= a -> 0 <= b ->
  let a' := if Req_dec_T a 0 then 1 else a in
  let b' := if Req_dec_T b 0 then 1 else b in
  aspectRatio a b = Rmax a' b' / Rmin a' b'
  /\ 1 <= aspectRatio a b
  /\ (compliant a b = true <-> aspectRatio a b <= 4)
  /\ (aspectRatio 4 16 = 4 /\ compliant 4 16 = true)
  /\ (aspectRatio 4 20 = 5 /\ compliant 4 20 = false).
Proof.
  intros Ha Hb a' b'.
  split; [reflexivity |].
  split; [apply aspectRatio_ge_1; assumption |].
  split; [apply compliant_iff |].
  split; (split; [first [apply aspectRatio_4_16 | apply aspectRatio_4_20] |]).
  - apply compliant_iff. rewrite aspectRatio_4_16. lra.
  - apply not_true_is_false. intros H. apply compliant_iff in H.
    rewrite aspectRatio_4_20 in H. lra.
Qed.

Lemma evaluateAspect_contract_witness :
  1 <= aspectRatio 0 12
  /\ (compliant 0 12 = true <-> aspectRatio 0 12 <= 4).
Proof.
  destruct (evaluateAspect_contract 0 12) as (_ & Hge & Hc & _); [lra | lra |].
  split; assumption.
Defined.

(** The warning shown by the component is the verdict on the two displayed
    sides. *)
Lemma isRatioWarning_compliant (st : AppState) :
  isRatioWarning st = negb (compliant (displayRectSide st) (showRectRes st)).
Proof. unfold isRatioWarning, compliant. rewrite negb_involutive. reflexivity. Qed.

(** ** Unit conversion *)

(** The constants of the source do not convert from IP to SI by
    multiplication: in the initial state switched to SI the display value
    of each quantity is not the canonical value times the constant, and the
    canonical value stored by a handler is not the entered value divided by
    the constant. *)
Lemma conversion_not_ip_times_constant :
  let st := setUnits SI initialState in
  displayAirflow st <> airflowIP st * CMH_TO_CFM
  /\ displayFriction st <> frictionIP st * PA_M_TO_IN_100FT
  /\ displayVelocity st <> velocityIP st * M_S_TO_FPM
  /\ displayRectSide st <> rectSideIP st * MM_TO_IN
  /\ airflowIP (handleAirflowChange 1000 st) <> 1000 / CMH_TO_CFM.
Proof.
  cbv zeta.
  unfold displayAirflow, displayFriction, displayVelocity, displayRectSide,
    handleAirflowChange.
  simpl. unfold CMH_TO_CFM, PA_M_TO_IN_100FT, M_S_TO_FPM, MM_TO_IN.
  repeat split; lra.
Qed.



(** ** The calculation effect *)

Lemma ispos_true (a : R) : 0 < a -> ispos a = true.
Proof. intros H. unfold ispos. destruct (Rlt_dec 0 a); [reflexivity | contradiction]. Qed.

Lemma ispos_false (a : R) : ~ 0 < a -> ispos a = false.
Proof. intros H. unfold ispos. destruct (Rlt_dec 0 a); [contradiction | reflexivity]. Qed.

Lemma calcDiameterStep_inputs (st : AppState) :
  rectSideIP (snd (calcDiameterStep st)) = rectSideIP st
  /\ resultDia (snd (calcDiameterStep st)) = fst (calcDiameterStep st).
Proof. unfold calcDiameterStep. destruct (mode st); split; reflexivity. Qed.

(** C8: after the calculation effect the required side is
    [solveRectDimension] of the solved diameter and the constraint side
    when both are positive, and exactly 0 in every other case. *)
Theorem requiredSide_guard (st : AppState) :
  let d := fst (calcDiameterStep st) in
  let st' := calculationEffect st in
  resultDia st' = d
  /\ (0 < d /\ 0 < rectSideIP st ->
      resultRectSide st' = solveRectDimension d (rectSideIP st))
  /\ (~ (0 < d /\ 0 < rectSideIP st) -> resultRectSide st' = 0).
Proof.
  intros d st'. unfold st', calculationEffect, d.
  destruct (calcDiameterStep_inputs st) as [Hside Hdia].
  destruct (calcDiameterStep st) as [d0 st1]. simpl in *.
  unfold calcRectStep. rewrite Hside.
  split; [destruct (ispos d0 && ispos (rectSideIP st)); simpl; assumption |].
  split.
  - intros [Hd Hs]. rewrite (ispos_true _ Hd), (ispos_true _ Hs). reflexivity.
  - intros Hn.
    destruct (Rlt_dec 0 d0) as [Hd | Hd].
    + destruct (Rlt_dec 0 (rectSideIP st)) as [Hs | Hs]; [tauto |].
      rewrite (ispos_false _ Hs), andb_false_r. reflexivity.
    + rewrite (ispos_false _ Hd). reflexivity.
Qed.

(** ** Numeric tools *)

(** From the alternating series of [2 * atan (/3) + atan (/7)], cut after
    its terms of index 4 and 5. *)
Lemma pi_bounds : 3.14159 < PI < 3.1416.
Proof.
  pose proof (PI_2_3_7_ineq 2) as [Hlo Hhi].
  unfold sum_f_R0, tg_alt, PI_2_3_7_tg, Ratan_seq in Hlo, Hhi.
  simpl in Hlo, Hhi.
  split; lra.
Qed.

(** A power with a rational exponent [p / q], by way of integer powers. *)
Lemma Rpower_rational (x e : R) (p q : nat) :
  0 < x -> e * INR q = INR p -> Rpower x e ^ q = x ^ p.
Proof.
  intros Hx He.
  rewrite <- (Rpower_pow q) by apply Rpower_pos.
  rewrite Rpower_mult, He. apply Rpower_pow. assumption.
Qed.

Lemma pow_lt_reg (a b : R) (n : nat) : 0 <= b -> a ^ n < b ^ n -> a < b \/ a < 0.
Proof.
  intros Hb H. destruct (Rlt_dec a 0) as [Ha | Ha]; [right; assumption | left].
  apply Rnot_le_lt. intros Hle.
  assert (b ^ n <= a ^ n) by (apply pow_incr; lra). lra.
Qed.

Lemma pow_le_reg (a b : R) (n : nat) : 0 <= a -> 0 < b -> a ^ n <= b ^ n -> (0 < n)%nat -> a <= b.
Proof.
  intros Ha Hb H Hn. apply Rnot_lt_le. intros Hlt.
  assert (b ^ n < a ^ n); [| lra].
  destruct n as [| n]; [lia |].
  clear H Hn. induction n as [| n IH].
  - simpl. lra.
  - change (b ^ S (S n)) with (b * b ^ S n). change (a ^ S (S n)) with (a * a ^ S n).
    assert (0 < b ^ S n) by (apply pow_lt; assumption).
    nra.
Qed.

Lemma pow_frac (a b : Z) (n : nat) :
  (IZR a / IZR b) ^ n = IZR (a ^ Z.of_nat n) / IZR (b ^ Z.of_nat n).
Proof.
  unfold Rdiv. rewrite Rpow_mult_distr, pow_inv, !pow_IZR. reflexivity.
Qed.

Lemma IZR_frac_lt (a b c d : Z) :
  (0 < b)%Z -> (0 < d)%Z -> (a * d < c * b)%Z -> IZR a / IZR b < IZR c / IZR d.
Proof.
  intros Hb Hd H. apply IZR_lt in Hb, Hd, H. rewrite !mult_IZR in H.
  apply Rmult_lt_reg_r with (IZR b * IZR d); [nra |].
  replace (IZR a / IZR b * (IZR b * IZR d)) with (IZR a * IZR d) by (field; lra).
  replace (IZR c / IZR d * (IZR b * IZR d)) with (IZR c * IZR b) by (field; lra).
  assumption.
Qed.

(** ** Scenario A: 1000 CFM at 0.1 in.wg/100ft *)

(** The exponents are 19/10 and 50/251: the 251st power of the diameter is
    a rational number. *)
Lemma scenarioA_diameter_pow :
  solveDiaByFriction 1000 0.1 ^ 251 = IZR (109136 ^ 50 * 1000 ^ 95) / IZR (100000 ^ 50).
Proof.
  unfold solveDiaByFriction.
  rewrite !nonpos_false by lra. simpl orb. cbv iota.
  rewrite (Math_pow_pos_base 1000) by lra.
  assert (HP : 0 < Rpower 1000 1.9) by apply Rpower_pos.
  rewrite Math_pow_pos_base by (apply Rdiv_lt_0_compat; lra).
  rewrite (Rpower_rational _ _ 50 251).
  - replace (0.109136 * Rpower 1000 1.9 / 0.1)
      with ((IZR 109136 / IZR 100000) * Rpower 1000 1.9) by lra.
    rewrite Rpow_mult_distr, pow_frac.
    rewrite (Rpower_rational 1000 1.9 95 50).
    + rewrite pow_IZR, mult_IZR.
      change (Z.of_nat 50) with 50%Z. change (Z.of_nat 95) with 95%Z.
      unfold Rdiv. ring.
    + lra.
    + rewrite !INR_IZR_INZ. simpl. lra.
  - apply Rdiv_lt_0_compat; lra.
  - rewrite !INR_IZR_INZ. simpl. lra.
Qed.

Lemma scenarioA_diameter_pos : 0 < solveDiaByFriction 1000 0.1.
Proof. apply solveDiaByFriction_pos; lra. Qed.

Lemma scenarioA_diameter_bounds :
  13.9002 < solveDiaByFriction 1000 0.1 < 13.90023.
Proof.
  pose proof scenarioA_diameter_pos as HD.
  split.
  - destruct (pow_lt_reg 13.9002 (solveDiaByFriction 1000 0.1) 251) as [H | H]; [lra | | exact H | lra].
    rewrite scenarioA_diameter_pow.
    replace 13.9002 with (IZR 139002 / IZR 10000) by lra.
    rewrite pow_frac. apply IZR_frac_lt; vm_compute; reflexivity.
  - destruct (pow_lt_reg (solveDiaByFriction 1000 0.1) 13.90023 251) as [H | H]; [lra | | exact H | lra].
    rewrite scenarioA_diameter_pow.
    replace 13.90023 with (IZR 1390023 / IZR 100000) by lra.
    rewrite pow_frac. apply IZR_frac_lt; vm_compute; reflexivity.
Qed.

Lemma scenarioA_velocity_bounds :
  948.9 < calcVelocity 1000 (solveDiaByFriction 1000 0.1) < 948.95.
Proof.
  pose proof scenarioA_diameter_bounds as [Hlo Hhi].
  pose proof pi_bounds as [Plo Phi].
  rewrite calcVelocity_value by lra.
  set (D := solveDiaByFriction 1000 0.1) in *.
  assert (Hsq : 193.21556 < D * D < 193.216395) by nra.
  assert (Harea : 0.33544368 * 3.14159 < PI * (D / 24 * (D / 24)) < 0.33544513 * 3.1416) by nra.
  set (A := PI * (D / 24 * (D / 24))) in *.
  assert (HA : 0 < A) by lra.
  split.
  - apply Rmult_lt_reg_r with A; [assumption |].
    unfold Rdiv. rewrite Rmult_assoc, Rinv_l by lra. nra.
  - apply Rmult_lt_reg_r with A; [assumption |].
    unfold Rdiv. rewrite Rmult_assoc, Rinv_l by lra. nra.
Qed.

(** The effect in friction mode. *)
Lemma calculationEffect_friction (st : AppState) :
  mode st = friction ->
  let d := solveDiaByFriction (airflowIP st) (frictionIP st) in
  resultDia (calculationEffect st) = d
  /\ resultVelocity (calculationEffect st) = calcVelocity (airflowIP st) d
  /\ resultFriction (calculationEffect st) = frictionIP st.
Proof.
  intros Hm d. unfold calculationEffect, calcDiameterStep, calcRectStep.
  rewrite Hm. fold d.
  destruct (ispos d && ispos _); simpl; repeat split; reflexivity.
Qed.

(** The effect in velocity mode. *)
Lemma calculationEffect_velocity (st : AppState) :
  mode st = velocity ->
  let d := solveDiaByVelocity (airflowIP st) (velocityIP st) in
  resultDia (calculationEffect st) = d
  /\ resultVelocity (calculationEffect st) = velocityIP st
  /\ resultFriction (calculationEffect st) = calcFriction (airflowIP st) d.
Proof.
  intros Hm d. unfold calculationEffect, calcDiameterStep, calcRectStep.
  rewrite Hm. fold d.
  destruct (ispos d && ispos _); simpl; repeat split; reflexivity.
Qed.

(** In friction mode the effect calls [calcVelocity] with the diameter
    solved from the same airflow, so a non-positive airflow reaches it
    with a zero diameter. *)
Lemma calculationEffect_friction_nonpos_airflow (st : AppState) :
  mode st = friction -> airflowIP st <= 0 ->
  resultDia (calculationEffect st) = 0
  /\ resultVelocity (calculationEffect st) = 0.
Proof.
  intros Hm Ha.
  destruct (calculationEffect_friction st Hm) as (HD & HV & _).
  rewrite HV, HD, solveDiaByFriction_guard by (left; assumption).
  split; [reflexivity | apply calcVelocity_guard; lra].
Qed.

(** C9 as stated, refuted: with 1000 CFM and 0.1 in.wg/100ft in friction
    mode (the initial state) the derived velocity is below 948.95 FPM, more
    than 2 FPM away from 951. *)
Lemma scenarioA_velocity_not_951 :
  let st := calculationEffect initialState in
  resultVelocity st < 948.95 /\ ~ Rabs (resultVelocity st - 951) <= 2.
Proof.
  cbv zeta.
  destruct (calculationEffect_friction initialState eq_refl) as (_ & HV & _).
  rewrite HV. simpl airflowIP. simpl frictionIP.
  pose proof scenarioA_velocity_bounds as [_ Hhi].
  split; [assumption |].
  rewrite Rabs_left by lra. lra.
Qed.

(** C9, amended: with 1000 CFM and 0.1 in.wg/100ft in friction mode the
    solved diameter is 13.9 inches to one decimal (between 13.9002 and
    13.90023) and the derived velocity is 949 FPM to the nearest unit
    (between 948.9 and 948.95). *)
Theorem scenarioA_diameter_and_velocity :
  let st := calculationEffect initialState in
  resultDia st = solveDiaByFriction 1000 0.1
  /\ resultVelocity st = calcVelocity 1000 (resultDia st)
  /\ 13.9002 < resultDia st < 13.90023
  /\ 948.9 < resultVelocity st < 948.95
  /\ Rabs (resultDia st - 13.9) < 0.05
  /\ Rabs (resultVelocity st - 949) < 0.5.
Proof.
  cbv zeta.
  destruct (calculationEffect_friction initialState eq_refl) as (HD & HV & _).
  simpl airflowIP in *. simpl frictionIP in *.
  rewrite HV, HD.
  pose proof scenarioA_diameter_bounds as HDb.
  pose proof scenarioA_velocity_bounds as HVb.
  repeat split; try reflexivity; try lra.
  - apply Rabs_def1; lra.
  - apply Rabs_def1; lra.
Qed.

(** ** Ties in the scan *)

(** The equivalent diameter as a product of two increasing factors. *)
Lemma calcDe_factored (k x : R) :
  0 < k -> 0 < x ->
  calcDe k x = 1.30 * (Rpower (k * x) 0.375 * Rpower (k * x / (k + x)) 0.25).
Proof.
  intros Hk Hx. unfold calcDe. cbv zeta.
  assert (Hkx : 0 < k * x) by (apply Rmult_lt_0_compat; assumption).
  rewrite !Math_pow_pos_base by lra.
  replace 0.625 with (0.375 + 0.25) by lra.
  rewrite Rpower_plus.
  assert (Hq : 0 < k * x / (k + x)) by (apply Rdiv_lt_0_compat; lra).
  assert (E : Rpower (k * x) 0.25
              = Rpower (k * x / (k + x)) 0.25 * Rpower (k + x) 0.25).
  { rewrite Rpower_mult_distr by lra. f_equal. field. lra. }
  rewrite E. pose proof (Rpower_pos (k + x) 0.25). field. lra.
Qed.

Lemma calcDe_increasing (k x y : R) :
  0 < k -> 0 < x -> x <= y -> calcDe k x <= calcDe k y.
Proof.
  intros Hk Hx Hxy. rewrite !calcDe_factored by lra.
  assert (Hkx : 0 < k * x) by (apply Rmult_lt_0_compat; assumption).
  assert (Hq : 0 < k * x / (k + x)) by (apply Rdiv_lt_0_compat; lra).
  assert (H1 : Rpower (k * x) 0.375 <= Rpower (k * y) 0.375).
  { apply Rle_Rpower_l; [lra |]. split; [assumption | nra]. }
  assert (H2 : Rpower (k * x / (k + x)) 0.25 <= Rpower (k * y / (k + y)) 0.25).
  { apply Rle_Rpower_l; [lra |]. split; [assumption |].
    apply Rmult_le_reg_r with ((k + x) * (k + y)); [nra |].
    replace (k * x / (k + x) * ((k + x) * (k + y))) with (k * x * (k + y))
      by (field; lra).
    replace (k * y / (k + y) * ((k + x) * (k + y))) with (k * y * (k + x))
      by (field; lra).
    nra. }
  pose proof (Rpower_pos (k * x) 0.375).
  pose proof (Rpower_pos (k * x / (k + x)) 0.25).
  apply Rmult_le_compat_l; [lra |].
  apply Rmult_le_compat; lra.
Qed.

Lemma scanPoint_2 : scanPoint 2.
Proof. exists 0%nat. split; [lia | simpl; lra]. Qed.

Lemma scanPoint_2_5 : scanPoint 2.5.
Proof. exists 1%nat. split; [lia | simpl; lra]. Qed.

Lemma scanPoint_first (y : R) : scanPoint y -> y = 2 \/ 2.5 <= y.
Proof.
  intros [[| j] [_ Hy]].
  - left. simpl in Hy. lra.
  - right. rewrite S_INR in Hy. pose proof (pos_INR j). lra.
Qed.

(** Within reach of the initial [minDiff], the smaller of two tied scan
    points of least difference is returned. *)
Lemma solveRectDimension_tie_within_reach (t k x1 x2 : R) :
  0 < t -> 0 < k ->
  scanPoint x1 -> scanPoint x2 -> x1 < x2 ->
  scanDiff t k x1 = scanDiff t k x2 ->
  (forall y, scanPoint y -> scanDiff t k x1 <= scanDiff t k y) ->
  (forall y, scanPoint y -> y < x1 -> scanDiff t k x1 < scanDiff t k y) ->
  scanDiff t k x1 < 1000 ->
  solveRectDimension t k = x1.
Proof.
  intros Ht Hk H1 H2 Hlt Heq Hmin Hfirst Hreach.
  destruct (solveRectDimension_best t k Ht Hk) as (Hr & Hrmin & Hrfirst).
  { exists x1. split; assumption. }
  set (r := solveRectDimension t k) in *.
  destruct (Rtotal_order r x1) as [Hlt1 | [E | Hgt]]; [| exact E |].
  - specialize (Hfirst r Hr Hlt1). specialize (Hrmin x1 H1). lra.
  - specialize (Hrfirst x1 H1 Hgt). specialize (Hmin r Hr). lra.
Qed.

(** * Further properties of the engine and the component *)

(** ** The solvers as inverse functions *)

Lemma solveDiaByFriction_value (cfm friction : R) :
  0 < cfm -> 0 < friction ->
  solveDiaByFriction cfm friction
  = Rpower (0.109136 * Rpower cfm 1.9 / friction) (1 / 5.02).
Proof.
  intros Hc Hf. unfold solveDiaByFriction.
  rewrite (nonpos_false cfm Hc), (nonpos_false friction Hf). simpl orb. cbv iota.
  pose proof (solveDiaByFriction_base_pos cfm friction Hc Hf) as HB.
  rewrite (Math_pow_pos_base _ _ HB), (Math_pow_pos_base cfm) by assumption.
  reflexivity.
Qed.

Lemma calcFriction_value (cfm diaInches : R) :
  0 < cfm -> 0 < diaInches ->
  calcFriction cfm diaInches = 0.109136 * Rpower cfm 1.9 / Rpower diaInches 5.02.
Proof.
  intros Hc Hd. unfold calcFriction.
  rewrite (nonpos_false cfm Hc), (nonpos_false diaInches Hd). simpl orb. cbv iota.
  rewrite !Math_pow_pos_base by assumption. reflexivity.
Qed.

Lemma calcFriction_pos (cfm diaInches : R) :
  0 < cfm -> 0 < diaInches -> 0 < calcFriction cfm diaInches.
Proof.
  intros Hc Hd. rewrite calcFriction_value by assumption.
  pose proof (Rpower_pos cfm 1.9). pose proof (Rpower_pos diaInches 5.02).
  apply Rdiv_lt_0_compat; lra.
Qed.

Lemma calcVelocity_pos (cfm diaInches : R) :
  0 < cfm -> 0 < diaInches -> 0 < calcVelocity cfm diaInches.
Proof.
  intros Hc Hd. rewrite calcVelocity_value by assumption.
  pose proof PI_RGT_0.
  apply Rdiv_lt_0_compat; [assumption |].
  apply Rmult_lt_0_compat; [assumption |]. apply Rmult_lt_0_compat; lra.
Qed.

Lemma solveDiaByFriction_of_calcFriction (cfm diaInches : R) :
  0 < cfm -> 0 < diaInches ->
  solveDiaByFriction cfm (calcFriction cfm diaInches) = diaInches.
Proof.
  intros Hc Hd.
  rewrite solveDiaByFriction_value by (try apply calcFriction_pos; assumption).
  rewrite calcFriction_value by assumption.
  pose proof (Rpower_pos cfm 1.9) as HP. pose proof (Rpower_pos diaInches 5.02) as HQ.
  replace (0.109136 * Rpower cfm 1.9 / (0.109136 * Rpower cfm 1.9 / Rpower diaInches 5.02))
    with (Rpower diaInches 5.02) by (field; lra).
  rewrite Rpower_mult. replace (5.02 * (1 / 5.02)) with 1 by lra.
  apply Rpower_1. assumption.
Qed.

Lemma solveDiaByVelocity_value (cfm fpm : R) :
  0 < cfm -> 0 < fpm -> solveDiaByVelocity cfm fpm = 24 * sqrt (cfm / fpm / PI).
Proof.
  intros Hc Hf. unfold solveDiaByVelocity.
  rewrite (nonpos_false cfm Hc), (nonpos_false fpm Hf). simpl orb. cbv iota zeta. lra.
Qed.

Lemma solveDiaByVelocity_of_calcVelocity (cfm diaInches : R) :
  0 < cfm -> 0 < diaInches ->
  solveDiaByVelocity cfm (calcVelocity cfm diaInches) = diaInches.
Proof.
  intros Hc Hd.
  rewrite solveDiaByVelocity_value by (try apply calcVelocity_pos; assumption).
  rewrite calcVelocity_value by assumption.
  pose proof PI_RGT_0 as Hpi.
  replace (cfm / (cfm / (PI * (diaInches / 24 * (diaInches / 24))) ) / PI)
    with ((diaInches / 24) * (diaInches / 24)) by (field; lra).
  rewrite sqrt_square by lra. lra.
Qed.

(** ** Signs and monotonicity *)

Lemma solveDiaByFriction_nonneg (cfm friction : R) : 0 <= solveDiaByFriction cfm friction.
Proof.
  destruct (Rle_dec cfm 0) as [Hc | Hc];
    [rewrite solveDiaByFriction_guard by (left; assumption); lra |].
  destruct (Rle_dec friction 0) as [Hf | Hf];
    [rewrite solveDiaByFriction_guard by (right; assumption); lra |].
  apply Rlt_le, solveDiaByFriction_pos; lra.
Qed.

Lemma solveDiaByVelocity_nonneg (cfm fpm : R) : 0 <= solveDiaByVelocity cfm fpm.
Proof.
  destruct (Rle_dec cfm 0) as [Hc | Hc];
    [rewrite solveDiaByVelocity_guard by (left; assumption); lra |].
  destruct (Rle_dec fpm 0) as [Hf | Hf];
    [rewrite solveDiaByVelocity_guard by (right; assumption); lra |].
  apply Rlt_le, solveDiaByVelocity_pos; lra.
Qed.





(** X4: more airflow or a lower friction target never gives a smaller
    diameter. *)
Theorem solveDiaByFriction_monotone (cfm1 cfm2 f1 f2 : R) :
  cfm1 <= cfm2 -> 0 < f2 <= f1 ->
  solveDiaByFriction cfm1 f1 <= solveDiaByFriction cfm2 f2.
Proof.
  intros Hc [Hf2 Hf].
  destruct (Rle_dec cfm1 0) as [Hc1 | Hc1].
  - rewrite (solveDiaByFriction_guard cfm1) by (left; assumption).
    apply solveDiaByFriction_nonneg.
  - rewrite !solveDiaByFriction_value by lra.
    pose proof (Rpower_pos cfm1 1.9) as HP1.
    assert (HP : Rpower cfm1 1.9 <= Rpower cfm2 1.9)
      by (apply Rle_Rpower_l; lra).
    apply Rle_Rpower_l; [lra |]. split.
    + apply Rdiv_lt_0_compat; lra.
    + apply Rmult_le_reg_r with (f1 * f2); [nra |].
      replace (0.109136 * Rpower cfm1 1.9 / f1 * (f1 * f2))
        with (0.109136 * Rpower cfm1 1.9 * f2) by (field; lra).
      replace (0.109136 * Rpower cfm2 1.9 / f2 * (f1 * f2))
        with (0.109136 * Rpower cfm2 1.9 * f1) by (field; lra).
      nra.
Qed.

Lemma solveDiaByFriction_monotone_witness :
  solveDiaByFriction 1000 0.1 <= solveDiaByFriction 2000 0.08.
Proof. apply (solveDiaByFriction_monotone 1000 2000 0.1 0.08); lra. Defined.

(** X5: more airflow or a lower velocity target never gives a smaller
    diameter. *)
Theorem solveDiaByVelocity_monotone (cfm1 cfm2 v1 v2 : R) :
  cfm1 <= cfm2 -> 0 < v2 <= v1 ->
  solveDiaByVelocity cfm1 v1 <= solveDiaByVelocity cfm2 v2.
Proof.
  intros Hc [Hv2 Hv].
  destruct (Rle_dec cfm1 0) as [Hc1 | Hc1].
  - rewrite (solveDiaByVelocity_guard cfm1) by (left; assumption).
    apply solveDiaByVelocity_nonneg.
  - rewrite !solveDiaByVelocity_value by lra.
    pose proof PI_RGT_0 as Hpi.
    apply Rmult_le_compat_l; [lra |]. apply sqrt_le_1_alt.
    apply Rmult_le_reg_r with (v1 * v2 * PI); [apply Rmult_lt_0_compat; nra |].
    replace (cfm1 / v1 / PI * (v1 * v2 * PI)) with (cfm1 * v2) by (field; lra).
    replace (cfm2 / v2 / PI * (v1 * v2 * PI)) with (cfm2 * v1) by (field; lra).
    nra.
Qed.

Lemma solveDiaByVelocity_monotone_witness :
  solveDiaByVelocity 1000 1200 <= solveDiaByVelocity 2000 900.
Proof. apply (solveDiaByVelocity_monotone 1000 2000 1200 900); lra. Defined.



(** X7: at a positive airflow, more airflow or a smaller duct never gives
    a lower velocity. *)
Theorem calcVelocity_monotone (cfm1 cfm2 d1 d2 : R) :
  0 < cfm1 <= cfm2 -> 0 < d2 <= d1 ->
  calcVelocity cfm1 d1 <= calcVelocity cfm2 d2.
Proof.
  intros [Hc1 Hc] [Hd2 Hd]. rewrite !calcVelocity_value by lra.
  pose proof PI_RGT_0 as Hpi.
  set (A1 := PI * (d1 / 24 * (d1 / 24))). set (A2 := PI * (d2 / 24 * (d2 / 24))).
  assert (HA2 : 0 < A2).
  { unfold A2. apply Rmult_lt_0_compat; [assumption |]. apply Rmult_lt_0_compat; lra. }
  assert (HA : A2 <= A1).
  { unfold A1, A2. apply Rmult_le_compat_l; [lra |]. apply Rmult_le_compat; lra. }
  apply Rmult_le_reg_r with (A1 * A2); [nra |].
  replace (cfm1 / A1 * (A1 * A2)) with (cfm1 * A2) by (field; lra).
  replace (cfm2 / A2 * (A1 * A2)) with (cfm2 * A1) by (field; lra).
  nra.
Qed.

Lemma calcVelocity_monotone_witness :
  calcVelocity 1000 14 <= calcVelocity 1200 12.
Proof. apply (calcVelocity_monotone 1000 1200 14 12); lra. Defined.

(** ** The equivalent diameter along the scan *)

Lemma calcDe_pos (k x : R) : 0 < k -> 0 < x -> 0 < calcDe k x.
Proof.
  intros Hk Hx. rewrite calcDe_factored by assumption.
  pose proof (Rpower_pos (k * x) 0.375). pose proof (Rpower_pos (k * x / (k + x)) 0.25).
  apply Rmult_lt_0_compat; [lra |]. apply Rmult_lt_0_compat; assumption.
Qed.

Lemma calcDe_strictly_increasing (k x y : R) :
  0 < k -> 0 < x < y -> calcDe k x < calcDe k y.
Proof.
  intros Hk [Hx Hxy]. rewrite !calcDe_factored by lra.
  assert (Hkx : 0 < k * x) by (apply Rmult_lt_0_compat; assumption).
  assert (Hq : 0 < k * x / (k + x)) by (apply Rdiv_lt_0_compat; lra).
  assert (H1 : Rpower (k * x) 0.375 < Rpower (k * y) 0.375).
  { apply Rlt_Rpower_l; [lra |]. split; [assumption | nra]. }
  assert (H2 : Rpower (k * x / (k + x)) 0.25 <= Rpower (k * y / (k + y)) 0.25).
  { apply Rle_Rpower_l; [lra |]. split; [assumption |].
    apply Rmult_le_reg_r with ((k + x) * (k + y)); [nra |].
    replace (k * x / (k + x) * ((k + x) * (k + y))) with (k * x * (k + y))
      by (field; lra).
    replace (k * y / (k + y) * ((k + x) * (k + y))) with (k * y * (k + x))
      by (field; lra).
    nra. }
  pose proof (Rpower_pos (k * x) 0.375).
  pose proof (Rpower_pos (k * x / (k + x)) 0.25).
  apply Rmult_lt_compat_l; [lra |].
  apply Rlt_le_trans with (Rpower (k * y) 0.375 * Rpower (k * x / (k + x)) 0.25).
  - apply Rmult_lt_compat_r; assumption.
  - apply Rmult_le_compat_l; [| assumption]. apply Rlt_le, Rpower_pos.
Qed.

(** Two scan points are at least one step apart. *)
Lemma scanPoint_step (y z : R) : scanPoint y -> scanPoint z -> y < z -> y + 0.5 <= z.
Proof.
  intros [j [_ Hy]] [j' [_ Hz]] Hlt. subst.
  assert (Hj : (j < j')%nat) by (apply INR_lt; lra).
  apply le_INR in Hj. rewrite S_INR in Hj. lra.
Qed.



Lemma scanPoint_150 : scanPoint 150.
Proof. exists 296%nat. split; [lia | rewrite INR_296; lra]. Qed.

(** With a side from 0.5 to 384 inches the equivalent diameter at the
    scan point 2 is below 1000, so every target below 1000 is within reach
    of the initial [minDiff]. *)
Lemma scanDiff_2_within_reach (targetDia knownSide : R) :
  0 < targetDia < 1000 -> 0.5 <= knownSide <= 384 ->
  scanDiff targetDia knownSide 2 < 1000.
Proof.
  intros [Ht Ht'] [Hk Hk'].
  destruct (calcDe_le_product knownSide 2) as [Hp Hu]; [lra | lra |].
  unfold scanDiff. apply Rabs_def1; lra.
Qed.

(** The equivalent diameter of a 12 by 2 duct is at least 0.5. *)
Lemma calcDe_12_2_lower : 0.5 <= calcDe 12 2.
Proof.
  unfold calcDe. cbv zeta. rewrite !Math_pow_pos_base by lra.
  assert (Htop : 1 <= Rpower (12 * 2) 0.625).
  { rewrite <- (Rpower_O (12 * 2)) by lra. apply Rle_Rpower; lra. }
  assert (H16 : Rpower 16 0.25 = 2).
  { replace 16 with (Rpower 2 (INR 4)) by (rewrite Rpower_pow by lra; simpl; lra).
    rewrite Rpower_mult. replace (INR 4 * 0.25) with 1 by (simpl; lra).
    apply Rpower_1. lra. }
  assert (Hbot : Rpower (12 + 2) 0.25 <= 2).
  { rewrite <- H16. apply Rle_Rpower_l; lra. }
  pose proof (Rpower_pos (12 + 2) 0.25) as Hb.
  apply Rle_trans with (1.30 * (1 / 2)); [lra |].
  apply Rmult_le_compat_l; [lra |].
  apply Rmult_le_reg_r with (Rpower (12 + 2) 0.25); [assumption |].
  replace (Rpower (12 * 2) 0.625 / Rpower (12 + 2) 0.25 * Rpower (12 + 2) 0.25)
    with (Rpower (12 * 2) 0.625) by (field; lra).
  lra.
Qed.

(** X10: for a side from 0.5 to 384 inches, a target below 1000 that lies
    between the equivalent diameters of two neighbouring scan points is
    answered by one of the two. *)
Theorem solveRectDimension_bracket (targetDia knownSide y : R) :
  0.5 <= knownSide <= 384 -> targetDia < 1000 ->
  scanPoint y -> scanPoint (y + 0.5) ->
  calcDe knownSide y <= targetDia <= calcDe knownSide (y + 0.5) ->
  solveRectDimension targetDia knownSide = y
  \/ solveRectDimension targetDia knownSide = y + 0.5.
Proof.
  intros Hk Ht' Hy Hy' [Hlo Hhi].
  assert (Hk0 : 0 < knownSide) by lra.
  pose proof (scanPoint_range y Hy) as Hyr.
  assert (Ht : 0 < targetDia).
  { pose proof (calcDe_pos knownSide y Hk0). lra. }
  destruct (solveRectDimension_best targetDia knownSide Ht Hk0) as (Hrs & Hmin & _).
  { exists 2. split; [apply scanPoint_2 | apply scanDiff_2_within_reach; lra]. }
  set (r := solveRectDimension targetDia knownSide) in *.
  pose proof (scanPoint_range r Hrs) as Hrr.
  destruct (Rtotal_order r y) as [Hlt | [Heq | Hgt]]; [| left; exact Heq |].
  - exfalso. specialize (Hmin y Hy).
    pose proof (calcDe_strictly_increasing knownSide r y Hk0).
    unfold scanDiff in Hmin. rewrite (Rabs_left (calcDe knownSide r - targetDia)) in Hmin by lra.
    destruct Hlo as [Hlo | Hlo].
    + rewrite Rabs_left in Hmin by lra. lra.
    + rewrite Hlo in Hmin. replace (targetDia - targetDia) with 0 in Hmin by ring.
      rewrite Rabs_R0 in Hmin. lra.
  - pose proof (scanPoint_step y r Hy Hrs Hgt) as [Hs | Hs]; [| right; symmetry; exact Hs].
    exfalso. specialize (Hmin (y + 0.5) Hy').
    pose proof (calcDe_strictly_increasing knownSide (y + 0.5) r Hk0).
    unfold scanDiff in Hmin. rewrite !Rabs_right in Hmin by lra. lra.
Qed.

Lemma solveRectDimension_bracket_witness :
  solveRectDimension (calcDe 12 2) 12 = 2
  \/ solveRectDimension (calcDe 12 2) 12 = 2 + 0.5.
Proof.
  pose proof (calcDe_increasing 12 2 (2 + 0.5)) as Hi.
  destruct (calcDe_le_product 12 2) as [_ Hu]; [lra | lra |].
  apply (solveRectDimension_bracket (calcDe 12 2) 12 2);
    [lra | lra | apply scanPoint_2
     | replace (2 + 0.5) with 2.5 by lra; apply scanPoint_2_5
     | lra].
Defined.

(** X11: for a side from 0.5 to 384 inches the search saturates: a target
    at or below the equivalent diameter at 2 gives 2, and a target below
    1000 at or above the one at 150 gives 150. *)
Theorem solveRectDimension_saturates (targetDia knownSide : R) :
  0.5 <= knownSide <= 384 ->
  (0 < targetDia <= calcDe knownSide 2 ->
   solveRectDimension targetDia knownSide = 2)
  /\ (calcDe knownSide 150 <= targetDia < 1000 ->
      solveRectDimension targetDia knownSide = 150).
Proof.
  intros Hk. assert (Hk0 : 0 < knownSide) by lra.
  destruct (calcDe_le_product knownSide 2) as [Hp2 Hu2]; [lra | lra |].
  split.
  - intros [Ht Hside].
    destruct (solveRectDimension_best targetDia knownSide Ht Hk0) as (Hrs & _ & Hfirst).
    { exists 2. split; [apply scanPoint_2 | apply scanDiff_2_within_reach; lra]. }
    set (r := solveRectDimension targetDia knownSide) in *.
    pose proof (scanPoint_range r Hrs) as Hrr.
    destruct (Req_dec r 2) as [E | E]; [exact E |].
    assert (Hgt : 2 < r) by lra.
    specialize (Hfirst 2 scanPoint_2 Hgt).
    pose proof (calcDe_strictly_increasing knownSide 2 r Hk0).
    unfold scanDiff in Hfirst. rewrite !Rabs_right in Hfirst by lra. lra.
  - intros [Hside Ht'].
    assert (Ht : 0 < targetDia).
    { pose proof (calcDe_pos knownSide 150 Hk0). lra. }
    destruct (solveRectDimension_best targetDia knownSide Ht Hk0) as (Hrs & Hmin & _).
    { exists 2. split; [apply scanPoint_2 | apply scanDiff_2_within_reach; lra]. }
    set (r := solveRectDimension targetDia knownSide) in *.
    pose proof (scanPoint_range r Hrs) as Hrr.
    destruct (Req_dec r 150) as [E | E]; [exact E |].
    assert (Hlt : r < 150) by lra.
    specialize (Hmin 150 scanPoint_150).
    pose proof (calcDe_strictly_increasing knownSide r 150 Hk0).
    unfold scanDiff in Hmin. rewrite (Rabs_left (calcDe knownSide r - targetDia)) in Hmin by lra.
    destruct Hside as [Hs | Hs].
    + rewrite Rabs_left in Hmin by lra. lra.
    + rewrite Hs in Hmin. replace (targetDia - targetDia) with 0 in Hmin by ring.
      rewrite Rabs_R0 in Hmin. lra.
Qed.

Lemma solveRectDimension_saturates_witness :
  solveRectDimension 0.5 12 = 2.
Proof.
  destruct (solveRectDimension_saturates 0.5 12) as [H _]; [lra |].
  apply H. pose proof calcDe_12_2_lower. lra.
Defined.

(** X12: for a target below 1000 and a side from 0.5 to 384 inches the
    search returns a scan point, never the initial 0, and no scan point
    is nearer to the target by more than 1e-6. *)
Theorem solveRectDimension_within_reach (targetDia knownSide : R) :
  0 < targetDia < 1000 -> 0.5 <= knownSide <= 384 ->
  let r := solveRectDimension targetDia knownSide in
  scanPoint r
  /\ scanDiff targetDia knownSide r < 1000
  /\ (forall y, scanPoint y ->
        scanDiff targetDia knownSide r <= scanDiff targetDia knownSide y + 1e-6).
Proof.
  intros Ht Hk r.
  pose proof (scanDiff_2_within_reach targetDia knownSide Ht Hk) as H2.
  destruct (solveRectDimension_best targetDia knownSide) as (Hrs & Hmin & _);
    [lra | lra | exists 2; split; [apply scanPoint_2 | exact H2] |].
  fold r in Hrs, Hmin.
  split; [exact Hrs |]. split.
  - specialize (Hmin 2 scanPoint_2). lra.
  - intros y Hy. specialize (Hmin y Hy). lra.
Qed.

Lemma solveRectDimension_within_reach_witness :
  scanPoint (solveRectDimension 14 12).
Proof.
  destruct (solveRectDimension_within_reach 14 12) as [H _]; [lra | lra |].
  exact H.
Defined.

(** ** The calculation effect as a whole *)

Lemma calculationEffect_inputs (st : AppState) :
  units (calculationEffect st) = units st
  /\ mode (calculationEffect st) = mode st
  /\ airflowIP (calculationEffect st) = airflowIP st
  /\ frictionIP (calculationEffect st) = frictionIP st
  /\ velocityIP (calculationEffect st) = velocityIP st
  /\ rectSideIP (calculationEffect st) = rectSideIP st.
Proof.
  unfold calculationEffect, calcDiameterStep, calcRectStep.
  destruct (mode st) eqn:Hm; simpl;
    match goal with |- context [if ?c then _ else _] => destruct c end;
    simpl; rewrite ?Hm; repeat split; reflexivity.
Qed.

Lemma calculationEffect_rect (st : AppState) :
  resultRectSide (calculationEffect st)
  = if ispos (resultDia (calculationEffect st)) && ispos (rectSideIP st)
    then solveRectDimension (resultDia (calculationEffect st)) (rectSideIP st)
    else 0.
Proof.
  unfold calculationEffect, calcDiameterStep, calcRectStep.
  destruct st as [u m a f v s d rv rf rr]. destruct m; simpl;
    destruct (ispos _ && ispos s) eqn:E; simpl; rewrite ?E; reflexivity.
Qed.

(** X13: running the calculation effect again changes nothing, switching
    the display units commutes with it, and switching twice restores the
    state. *)
Theorem calculationEffect_stable (st : AppState) :
  calculationEffect (calculationEffect st) = calculationEffect st
  /\ calculationEffect (toggleUnits st) = toggleUnits (calculationEffect st)
  /\ toggleUnits (toggleUnits st) = st.
Proof.
  split; [| split].
  - unfold calculationEffect, calcDiameterStep, calcRectStep.
    destruct st as [u m a f v s d rv rf rr]. destruct m; simpl;
      destruct (ispos _ && ispos s) eqn:E; simpl; rewrite ?E; reflexivity.
  - unfold calculationEffect, calcDiameterStep, calcRectStep, toggleUnits.
    destruct st as [u m a f v s d rv rf rr]. destruct m; simpl;
      destruct (ispos _ && ispos s) eqn:E; simpl; reflexivity.
  - destruct st as [[|] m a f v s d rv rf rr]; reflexivity.
Qed.

Lemma calculationEffect_dia (st : AppState) :
  resultDia (calculationEffect st)
  = match mode st with
    | friction => solveDiaByFriction (airflowIP st) (frictionIP st)
    | velocity => solveDiaByVelocity (airflowIP st) (velocityIP st)
    end.
Proof.
  destruct (mode st) eqn:Hm.
  - apply (calculationEffect_friction st Hm).
  - apply (calculationEffect_velocity st Hm).
Qed.

Lemma calculationEffect_zero_diameter (st : AppState) :
  airflowIP st <= 0 \/ driver st <= 0 ->
  resultDia (calculationEffect st) = 0
  /\ resultRectSide (calculationEffect st) = 0.
Proof.
  intros H.
  assert (HD : resultDia (calculationEffect st) = 0).
  { rewrite calculationEffect_dia. unfold driver in H. destruct (mode st).
    - apply solveDiaByFriction_guard; assumption.
    - apply solveDiaByVelocity_guard; assumption. }
  split; [exact HD |].
  rewrite calculationEffect_rect, HD.
  rewrite (ispos_false 0) by lra. reflexivity.
Qed.

(** X15: with a non-positive airflow or target the diameter, the derived
    value and the required side are 0, while the target itself is passed
    through to the results unchanged. *)
Theorem calculationEffect_degenerate (st : AppState) :
  airflowIP st <= 0 \/ driver st <= 0 ->
  let st' := calculationEffect st in
  resultDia st' = 0 /\ derived st' = 0 /\ resultRectSide st' = 0
  /\ match mode st with
     | friction => resultFriction st' = frictionIP st
     | velocity => resultVelocity st' = velocityIP st
     end.
Proof.
  intros H st'. unfold st'.
  destruct (calculationEffect_zero_diameter st H) as [HD HR].
  split; [exact HD |].
  destruct (calculationEffect_inputs st) as (_ & Hmode & _).
  split; [| split].
  - unfold derived. rewrite Hmode. destruct (mode st) eqn:Hm.
    + destruct (calculationEffect_friction st Hm) as (HD' & HV & _).
      rewrite HV, <- HD', HD. apply calcVelocity_guard. lra.
    + destruct (calculationEffect_velocity st Hm) as (HD' & _ & HF).
      rewrite HF, <- HD', HD. apply calcFriction_guard. left. lra.
  - exact HR.
  - destruct (mode st) eqn:Hm.
    + apply (calculationEffect_friction st Hm).
    + apply (calculationEffect_velocity st Hm).
Qed.

Lemma calculationEffect_degenerate_witness :
  resultDia (calculationEffect (setAirflowIP 0 initialState)) = 0
  /\ resultRectSide (calculationEffect (setAirflowIP 0 initialState)) = 0.
Proof.
  destruct (calculationEffect_degenerate (setAirflowIP 0 initialState))
    as (H1 & _ & H2 & _); [left; simpl; lra |].
  split; [exact H1 | exact H2].
Defined.

(** The solved diameter stays below 1000 inches for airflows up to 20000
    CFM, friction targets from 0.01 and velocity targets from 100. *)
Lemma solveDiaByFriction_below_1000 (cfm friction : R) :
  0 < cfm <= 20000 -> 0.01 <= friction -> solveDiaByFriction cfm friction < 1000.
Proof.
  intros [Hc Hc'] Hf. rewrite solveDiaByFriction_value by lra.
  pose proof (Rpower_pos cfm 1.9) as HP.
  assert (H1 : Rpower cfm 1.9 <= Rpower 20000 1.9) by (apply Rle_Rpower_l; lra).
  assert (H2 : Rpower 20000 1.9 <= Rpower 20000 2) by (apply Rle_Rpower; lra).
  assert (H3 : Rpower 20000 2 = 400000000).
  { change 2 with (INR 2). rewrite Rpower_pow by lra. simpl. lra. }
  assert (H4 : 1000 ^ 5 <= Rpower 1000 5.02).
  { rewrite <- (Rpower_pow 5) by lra. apply Rle_Rpower; [lra |].
    rewrite INR_IZR_INZ. simpl. lra. }
  assert (HB : 0.109136 * Rpower cfm 1.9 / friction < Rpower 1000 5.02).
  { apply Rle_lt_trans with (0.109136 * 400000000 / 0.01); [| lra].
    apply Rmult_le_reg_r with (friction * 0.01); [nra |].
    replace (0.109136 * Rpower cfm 1.9 / friction * (friction * 0.01))
      with (0.109136 * Rpower cfm 1.9 * 0.01) by (field; lra).
    replace (0.109136 * 400000000 / 0.01 * (friction * 0.01))
      with (0.109136 * 400000000 * friction) by (field; lra).
    nra. }
  apply Rlt_le_trans with (Rpower (Rpower 1000 5.02) (1 / 5.02)).
  - apply Rlt_Rpower_l; [lra |]. split; [| assumption].
    apply Rdiv_lt_0_compat; lra.
  - rewrite Rpower_mult. replace (5.02 * (1 / 5.02)) with 1 by lra.
    rewrite Rpower_1 by lra. lra.
Qed.

Lemma solveDiaByVelocity_below_1000 (cfm fpm : R) :
  0 < cfm <= 20000 -> 100 <= fpm -> solveDiaByVelocity cfm fpm < 1000.
Proof.
  intros [Hc Hc'] Hf. rewrite solveDiaByVelocity_value by lra.
  pose proof PI2_3_2 as Hpi.
  assert (Hlt : cfm / fpm / PI < 10 * 10).
  { apply Rmult_lt_reg_r with (fpm * PI); [nra |].
    replace (cfm / fpm / PI * (fpm * PI)) with cfm by (field; lra). nra. }
  assert (Hs : sqrt (cfm / fpm / PI) < 10).
  { rewrite <- (sqrt_square 10) by lra. apply sqrt_lt_1_alt. split; [| assumption].
    apply Rlt_le. apply Rdiv_lt_0_compat; [apply Rdiv_lt_0_compat |]; lra. }
  lra.
Qed.

(** X16: for an airflow from 1 to 20000 CFM, a friction target from 0.01
    to 100 or a velocity target from 100 to 100000 FPM, and a constraint
    side from 0.5 to 384 inches, the diameter is positive and below 1000
    and the required side is a scan point, never 0. *)
Theorem calculationEffect_finds_side (st : AppState) :
  1 <= airflowIP st <= 20000 ->
  match mode st with
  | friction => 0.01 <= frictionIP st <= 100
  | velocity => 100 <= velocityIP st <= 100000
  end ->
  0.5 <= rectSideIP st <= 384 ->
  let st' := calculationEffect st in
  0 < resultDia st' < 1000 /\ scanPoint (resultRectSide st').
Proof.
  intros Ha Hd Hs st'. unfold st'.
  assert (HD : 0 < resultDia (calculationEffect st) < 1000).
  { rewrite calculationEffect_dia. destruct (mode st).
    - split; [apply solveDiaByFriction_pos; lra
             | apply solveDiaByFriction_below_1000; lra].
    - split; [apply solveDiaByVelocity_pos; lra
             | apply solveDiaByVelocity_below_1000; lra]. }
  split; [exact HD |].
  rewrite calculationEffect_rect.
  rewrite (ispos_true (resultDia _)), (ispos_true (rectSideIP st)) by lra.
  simpl andb. cbv iota.
  destruct (solveRectDimension_best (resultDia (calculationEffect st)) (rectSideIP st))
    as (H1 & _); [lra | lra | | exact H1].
  exists 2. split; [apply scanPoint_2 | apply scanDiff_2_within_reach; lra].
Qed.

Lemma calculationEffect_finds_side_witness :
  scanPoint (resultRectSide (calculationEffect initialState)).
Proof.
  destruct (calculationEffect_finds_side initialState) as (_ & H);
    [simpl; lra | simpl; lra | simpl; lra |].
  exact H.
Defined.

(** ** Units and the velocity highlight *)

(** X18: in velocity mode nothing is highlighted.  In friction mode the
    velocity is highlighted in IP display exactly above 1500 FPM; every
    velocity highlighted in IP display is highlighted in SI display; a
    velocity from 1497 to 1500 FPM is highlighted in SI display (it is
    above 7.6 m/s) and not in IP display; a velocity up to 1496 FPM is not
    highlighted in SI display. *)
Theorem velocityHighlight_thresholds (st : AppState) :
  (mode st = velocity -> velocityHighlight st = false)
  /\ (mode st = friction ->
      (velocityHighlight (setUnits IP st) = true <-> 1500 < resultVelocity st)
      /\ (velocityHighlight (setUnits IP st) = true ->
          velocityHighlight (setUnits SI st) = true)
      /\ (1497 <= resultVelocity st <= 1500 ->
          velocityHighlight (setUnits SI st) = true
          /\ velocityHighlight (setUnits IP st) = false)
      /\ (resultVelocity st <= 1496 ->
          velocityHighlight (setUnits SI st) = false)).
Proof.
  split.
  - intros Hm. unfold velocityHighlight. rewrite Hm. reflexivity.
  - intros Hm.
    assert (HIP : forall b, velocityHighlight (setUnits IP st) = b
                            <-> (if Rlt_dec 1500 (resultVelocity st) then true else false) = b).
    { intros b. unfold velocityHighlight, showVel. simpl. rewrite Hm. tauto. }
    assert (HSI : forall b, velocityHighlight (setUnits SI st) = b
                            <-> (if Rlt_dec 7.6 (resultVelocity st / 196.85) then true else false) = b).
    { intros b. unfold velocityHighlight, showVel, M_S_TO_FPM. simpl. rewrite Hm. tauto. }
    assert (Hdiv : resultVelocity st = resultVelocity st / 196.85 * 196.85) by (field; lra).
    split; [| split; [| split]].
    + rewrite HIP. destruct (Rlt_dec 1500 (resultVelocity st)); split; intros H;
        try reflexivity; try discriminate; try assumption; contradiction.
    + rewrite HIP, HSI. destruct (Rlt_dec 1500 (resultVelocity st)) as [H | H];
        [intros _ | discriminate].
      destruct (Rlt_dec 7.6 (resultVelocity st / 196.85)) as [H' | H']; [reflexivity |].
      exfalso. lra.
    + intros [Hlo Hhi]. rewrite HIP, HSI. split.
      * destruct (Rlt_dec 7.6 (resultVelocity st / 196.85)) as [H' | H']; [reflexivity |].
        exfalso. lra.
      * destruct (Rlt_dec 1500 (resultVelocity st)) as [H | H]; [lra | reflexivity].
    + intros Hhi. rewrite HSI.
      destruct (Rlt_dec 7.6 (resultVelocity st / 196.85)) as [H' | H']; [| reflexivity].
      exfalso. lra.
Qed.

(** ** Aspect ratio of the displayed sides *)

Lemma orOne_nonzero (v : R) : v <> 0 -> orOne v = v.
Proof. intros H. unfold orOne. destruct (Req_dec_T v 0); [contradiction | reflexivity]. Qed.

Lemma orOne_zero : orOne 0 = 1.
Proof. unfold orOne. destruct (Req_dec_T 0 0) as [_ | H]; [reflexivity | exfalso; apply H; reflexivity]. Qed.

(** X19: the aspect ratio and the warning do not depend on the order of
    the two sides, zero sides included. *)
Theorem aspectRatio_symmetric (a b : R) :
  aspectRatio a b = aspectRatio b a /\ aspectWarning a b = aspectWarning b a.
Proof.
  assert (E : aspectRatio a b = aspectRatio b a).
  { unfold aspectRatio. cbv zeta. rewrite Rmax_comm, Rmin_comm. reflexivity. }
  split; [exact E |]. unfold aspectWarning. rewrite E. reflexivity.
Qed.

(** X21: with a non-positive airflow (no required side) and a constraint
    side from 1 to 4 inches, there is no warning in IP display and a
    warning in SI display: the substitute 1 for a zero side is not
    converted. *)
Theorem ratio_warning_unit_dependent (st : AppState) :
  airflowIP st <= 0 -> 1 <= rectSideIP st <= 4 ->
  isRatioWarning (calculationEffect (setUnits IP st)) = false
  /\ isRatioWarning (calculationEffect (setUnits SI st)) = true.
Proof.
  intros Ha [Hlo Hhi].
  assert (Hres : forall u, resultRectSide (calculationEffect (setUnits u st)) = 0).
  { intros u.
    destruct (calculationEffect_zero_diameter (setUnits u st)) as [_ H];
      [left; exact Ha | exact H]. }
  assert (Hin : forall u, rectSideIP (calculationEffect (setUnits u st)) = rectSideIP st
                          /\ units (calculationEffect (setUnits u st)) = u).
  { intros u. destruct (calculationEffect_inputs (setUnits u st)) as (Hu & _ & _ & _ & _ & Hs).
    split; [exact Hs | exact Hu]. }
  split.
  - destruct (Hin IP) as [Hs Hu].
    unfold isRatioWarning, aspectWarning, displayRectSide, showRectRes.
    rewrite Hu, Hs, (Hres IP).
    unfold aspectRatio. cbv zeta. rewrite orOne_zero, orOne_nonzero by lra.
    rewrite Rmax_left, Rmin_right by lra.
    destruct (Rlt_dec 4 (rectSideIP st / 1)) as [H | H]; [lra | reflexivity].
  - destruct (Hin SI) as [Hs Hu].
    unfold isRatioWarning, aspectWarning, displayRectSide, showRectRes.
    rewrite Hu, Hs, (Hres SI).
    replace (0 / MM_TO_IN) with 0 by (unfold MM_TO_IN; lra).
    assert (Hd : 25 < rectSideIP st / MM_TO_IN).
    { unfold MM_TO_IN. apply Rmult_lt_reg_r with 0.0393701; [lra |].
      unfold Rdiv. rewrite Rmult_assoc, Rinv_l by lra. lra. }
    unfold aspectRatio. cbv zeta. rewrite orOne_zero, orOne_nonzero by lra.
    rewrite Rmax_left, Rmin_right by lra.
    destruct (Rlt_dec 4 (rectSideIP st / MM_TO_IN / 1)) as [H | H]; [reflexivity | lra].
Qed.

Lemma ratio_warning_unit_dependent_witness :
  isRatioWarning (calculationEffect (setUnits IP (setRectSideIP 3 (setAirflowIP 0 initialState)))) = false
  /\ isRatioWarning (calculationEffect (setUnits SI (setRectSideIP 3 (setAirflowIP 0 initialState)))) = true.
Proof.
  apply (ratio_warning_unit_dependent (setRectSideIP 3 (setAirflowIP 0 initialState)));
    simpl; lra.
Defined.

(** ** The advisory call *)

Lemma orNoResponse_truthy (text : option string) : truthy (orNoResponse text) = true.
Proof. destruct text as [[| c rest] |]; reflexivity. Qed.

(** X23: while the request runs the panel shows the spinner; once it
    settles, loading is off, exactly one of response and error is
    non-empty, the panel shows that one, and nothing of the earlier
    response or error survives. *)
Theorem callGemini_settles (type : AiRequest) (outcome : FetchOutcome) (ai : AiState) :
  let ai' := callGemini type outcome ai in
  aiPanel (callGemini_begin type ai) = Spinner
  /\ aiLoading ai' = false
  /\ aiMode ai' = Some type
  /\ truthy (aiResponse ai') = negb (truthy (aiError ai'))
  /\ ((exists msg, aiPanel ai' = ErrorText msg /\ truthy msg = true)
      \/ (exists heading body,
            aiPanel ai' = ResponseText heading body /\ truthy body = true))
  /\ ai' = callGemini type outcome initialAiState.
Proof.
  cbv zeta. split; [reflexivity |]. split; [destruct outcome; reflexivity |].
  split; [destruct outcome; reflexivity |].
  split; [| split].
  - destruct outcome as [| | | text]; try reflexivity.
    simpl. rewrite orNoResponse_truthy. reflexivity.
  - destruct outcome as [| | | text].
    1-3: left; eexists; split; reflexivity.
    right. unfold callGemini, callGemini_end, callGemini_begin, aiPanel. simpl.
    rewrite orNoResponse_truthy. simpl.
    eexists. eexists. split; [reflexivity | apply orNoResponse_truthy].
  - destruct outcome; reflexivity.
Qed.

(** ** The solvers as inverses of the calculators, under rounding errors *)

Lemma pow_2_17 : 2 ^ 17 = 131072.
Proof. rewrite pow_IZR. apply f_equal. vm_compute. reflexivity. Qed.

(** X1: the solvers invert the calculators up to rounding: for an airflow
    from 1e-6 to 1e12 and a diameter from 0.001 to 1e5, with a rounding, a
    [Math.pow] and a [Math.sqrt] of relative error at most 1e-10, solving
    for the velocity or the friction rate calculated at a diameter gives
    back that diameter within a relative tolerance of 1e-6. *)
Theorem solvers_invert_calculators
  (eta : R) (rnd : R -> R) (pw : R -> R -> R) (sq : R -> R) (cfm D : R) :
  0 <= eta <= 1e-10 ->
  rounds eta rnd -> approximates_pow eta pw -> approximates_sqrt eta sq ->
  1e-6 <= cfm <= 1e12 -> 1e-3 <= D <= 1e5 ->
  Rabs (Rounded.solveDiaByVelocity rnd sq cfm (Rounded.calcVelocity rnd pw cfm D) - D)
    <= 1e-6 * D
  /\ Rabs (Rounded.solveDiaByFriction rnd pw cfm (Rounded.calcFriction rnd pw cfm D) - D)
       <= 1e-6 * D.
Proof.
  intros He0 Hr Hp Hq Hc HD.
  assert (He : 0 <= eta <= 1e-9) by lra.
  assert (Hev : 0 <= eta * D <= 1e-10 * D)
    by (split; [apply Rmult_le_pos | apply Rmult_le_compat_r]; lra).
  pose proof PI2_3_2 as Hpi1. pose proof PI_4 as Hpi2.
  split.
  - (* velocity *)
    unfold Rounded.calcVelocity. rewrite (nonpos_false D) by lra. cbv zeta.
    pose proof (rnd_near_self eta rnd He Hr PI ltac:(lra)) as HP.
    set (h := D / 24).
    assert (Hh : 4e-5 <= h <= 5e3) by (apply div_bounds; lra).
    pose proof (rnd_near_self eta rnd He Hr h ltac:(lra)) as H1.
    pose proof (near_Rpower _ _ _ 2 ltac:(lra) H1) as H2.
    set (g := Rpower h 2) in *.
    assert (Hg : 1.6e-9 <= g <= 2.5e7).
    { destruct (Rpower_crude 4e-5 5e3 h 2 2) as [G1 G2];
        [lra | lra | lra | simpl; lra |]. cbn [pow] in G1, G2. unfold g. lra. }
    pose proof (pw_near eta pw He Hp _ _ _ _ (proj1 H1) H2 ltac:(lra) ltac:(lra)) as H3.
    pose proof (near_mult _ _ _ _ _ _ HP H3) as H4.
    set (area := PI * g) in *.
    assert (Harea : 4.8e-9 <= area <= 1e8) by (unfold area; nra).
    pose proof (rnd_near eta rnd He Hr _ _ _ H4 ltac:(lra) ltac:(lra)) as H5.
    pose proof (near_div _ _ _ _ _ _ (near_refl cfm ltac:(lra)) H5) as H6.
    set (V := cfm / area) in *.
    assert (HV : 1e-14 <= V <= 2.1e20) by (apply div_bounds; lra).
    pose proof (rnd_near eta rnd He Hr _ _ _ H6 ltac:(lra) ltac:(lra)) as H7.
    set (v := rnd (cfm / rnd (rnd PI * pw (rnd h) 2))) in *.
    assert (Hv : 0 < v) by apply H7.
    unfold Rounded.solveDiaByVelocity.
    rewrite (nonpos_false cfm), (nonpos_false v) by lra. simpl orb. cbv iota zeta.
    pose proof (near_div _ _ _ _ _ _ (near_refl cfm ltac:(lra)) H7) as H8.
    replace (cfm / V) with area in H8 by (unfold V; field; lra).
    pose proof (rnd_near eta rnd He Hr _ _ _ H8 ltac:(lra) ltac:(lra)) as H9.
    pose proof (near_div _ _ _ _ _ _ H9 HP) as H10.
    replace (area / PI) with g in H10 by (unfold area; field; lra).
    pose proof (rnd_near eta rnd He Hr _ _ _ H10 ltac:(lra) ltac:(lra)) as H11.
    pose proof (near_sqrt _ _ _ H11) as H12.
    assert (Hsg : sqrt g = h).
    { unfold g. change 2 with (INR 2). rewrite Rpower_pow by lra.
      simpl. rewrite Rmult_1_r. apply sqrt_square. lra. }
    rewrite Hsg in H12.
    pose proof (sq_near eta sq He Hq _ _ _ (proj1 H11) H12 ltac:(lra) ltac:(lra)) as H13.
    pose proof (near_mult _ _ _ _ _ _ (near_refl 2 ltac:(lra)) H13) as H14.
    pose proof (rnd_near eta rnd He Hr _ _ _ H14 ltac:(lra) ltac:(lra)) as H15.
    pose proof (near_mult _ _ _ _ _ _ H15 (near_refl 12 ltac:(lra))) as H16.
    replace (2 * h * 12) with D in H16 by (unfold h; field).
    pose proof (rnd_near eta rnd He Hr _ _ _ H16 ltac:(lra) ltac:(lra)) as H17.
    apply near_rel in H17; [| lra]. apply Rabs_le. lra.
  - (* friction *)
    unfold Rounded.calcFriction.
    rewrite (nonpos_false D), (nonpos_false cfm) by lra. simpl orb. cbv iota.
    pose proof (rnd_near_self eta rnd He Hr 0.109136 ltac:(lra)) as Hc1.
    pose proof (rnd_near_self eta rnd He Hr 1.9 ltac:(lra)) as He19.
    pose proof (rnd_near_self eta rnd He Hr 5.02 ltac:(lra)) as He502.
    pose proof (near_div _ _ _ _ _ _ (near_refl 1 ltac:(lra)) He502) as Hi0.
    pose proof (rnd_near eta rnd He Hr _ _ _ Hi0 ltac:(lra) ltac:(lra)) as Hei.
    pose proof (near_mult _ _ _ _ _ _ He502 Hei) as Hprod.
    replace (5.02 * (1 / 5.02)) with 1 in Hprod by lra.
    pose proof (near_rel _ _ _ He19 ltac:(lra)) as B19.
    pose proof (near_rel _ _ _ He502 ltac:(lra)) as B502.
    pose proof (near_rel _ _ _ Hei ltac:(lra)) as Bei.
    pose proof (near_rel _ _ _ Hprod ltac:(lra)) as Bprod.
    set (c := rnd 0.109136) in *. set (e19 := rnd 1.9) in *.
    set (e502 := rnd 5.02) in *. set (ei := rnd (1 / e502)) in *.
    set (A := Rpower cfm e19).
    assert (HA : 1e-12 <= A <= 1e24).
    { destruct (Rpower_crude 1e-6 1e12 cfm e19 2) as [G1 G2];
        [lra | lra | lra | simpl; lra |]. cbn [pow] in G1, G2. unfold A. lra. }
    pose proof (pw_near eta pw He Hp 0 cfm e19 A ltac:(lra)
                  (near_refl A ltac:(lra)) ltac:(lra) ltac:(lra)) as Hp1.
    pose proof (near_mult _ _ _ _ _ _ Hc1 Hp1) as Hcp.
    pose proof (rnd_near eta rnd He Hr _ _ _ Hcp ltac:(lra) ltac:(lra)) as HN.
    pose proof (near_range _ _ _ HN ltac:(lra)) as BN.
    set (N := rnd (c * pw cfm e19)) in *.
    assert (HNr : 5e-14 <= N <= 2.2e23) by lra.
    set (Z := Rpower D e502).
    assert (HZ : 1e-18 <= Z <= 1e30).
    { destruct (Rpower_crude 1e-3 1e5 D e502 6) as [G1 G2];
        [lra | lra | lra | simpl; lra |]. cbn [pow] in G1, G2. unfold Z. lra. }
    pose proof (pw_near eta pw He Hp 0 D e502 Z ltac:(lra)
                  (near_refl Z ltac:(lra)) ltac:(lra) ltac:(lra)) as HPd.
    pose proof (near_div _ _ _ _ _ _ (near_refl N ltac:(lra)) HPd) as HF0.
    assert (HNZ : 5e-44 <= N / Z <= 2.2e41) by (apply div_bounds; nra).
    pose proof (rnd_near eta rnd He Hr _ _ _ HF0 ltac:(lra) ltac:(lra)) as HF.
    set (F := rnd (N / pw D e502)) in *.
    assert (HFpos : 0 < F) by apply HF.
    unfold Rounded.solveDiaByFriction.
    rewrite (nonpos_false cfm), (nonpos_false F) by lra. simpl orb. cbv iota.
    fold c e19 N e502 ei.
    pose proof (near_div _ _ _ _ _ _ (near_refl N ltac:(lra)) HF) as Hq0.
    replace (N / (N / Z)) with Z in Hq0 by (field; lra).
    pose proof (rnd_near eta rnd He Hr _ _ _ Hq0 ltac:(lra) ltac:(lra)) as Hq1.
    pose proof (near_Rpower _ _ _ ei ltac:(lra) Hq1) as HY.
    unfold Z in HY. rewrite Rpower_mult in HY.
    assert (HlnD : Rabs (ln D) <= 17).
    { replace 17 with (INR 17) by (rewrite INR_IZR_INZ; reflexivity).
      apply ln_abs_bound. rewrite pow_2_17. lra. }
    assert (HY1 : near (17 * (12 * eta)) (Rpower D (e502 * ei)) D).
    { rewrite <- (Rpower_1 D) at 2 by lra.
      apply near_Rpower_exp; [lra | assumption | apply Rabs_le; lra]. }
    pose proof (near_trans _ _ _ _ _ HY HY1) as HY2.
    assert (HY3 : near (210 * eta) (Rpower (rnd (N / F)) ei) D).
    { assert (He6 : ei * eta <= 1 * eta) by (apply Rmult_le_compat_r; lra).
      eapply near_weaken; [exact HY2 | lra]. }
    pose proof (pw_near eta pw He Hp _ _ _ _ (proj1 Hq1) HY3 ltac:(lra) ltac:(lra)) as Hfin.
    apply near_rel in Hfin; [| lra]. apply Rabs_le. lra.
Qed.

Lemma solvers_invert_calculators_witness :
  Rabs (Rounded.solveDiaByVelocity rnd_high sq_low 1000
          (Rounded.calcVelocity rnd_high pw_low 1000 12) - 12) <= 1e-6 * 12.
Proof.
  destruct (solvers_invert_calculators 1e-10 rnd_high pw_low sq_low 1000 12) as [H _];
    [lra | apply rounds_high | apply approximates_pow_low
     | apply approximates_sqrt_low | lra | lra | exact H].
Defined.

(** ** Units under rounding errors *)

Lemma near_ratio (d1 d2 x1 y1 x2 y2 : R) :
  near d1 x1 y1 -> near d2 x2 y2 ->
  near (d1 + d2) (Rmax x1 x2 / Rmin x1 x2) (Rmax y1 y2 / Rmin y1 y2).
Proof.
  intros (Hx1 & Hy1 & H1) (Hx2 & Hy2 & H2).
  assert (Hu : - d1 <= ln x1 - ln y1 <= d1).
  { destruct (Rcase_abs (ln x1 - ln y1)) as [Hn | Hp];
      [rewrite Rabs_left in H1 by assumption | rewrite Rabs_right in H1 by assumption]; lra. }
  assert (Hv : - d2 <= ln x2 - ln y2 <= d2).
  { destruct (Rcase_abs (ln x2 - ln y2)) as [Hn | Hp];
      [rewrite Rabs_left in H2 by assumption | rewrite Rabs_right in H2 by assumption]; lra. }
  assert (Hmx : 0 < Rmin x1 x2) by (apply Rmin_glb_lt; assumption).
  assert (Hmy : 0 < Rmin y1 y2) by (apply Rmin_glb_lt; assumption).
  assert (HMx : 0 < Rmax x1 x2) by (apply Rlt_le_trans with x1; [assumption | apply Rmax_l]).
  assert (HMy : 0 < Rmax y1 y2) by (apply Rlt_le_trans with y1; [assumption | apply Rmax_l]).
  repeat split; try (apply Rdiv_lt_0_compat; assumption).
  rewrite !ln_div by assumption.
  destruct (Rle_dec x1 x2) as [Hx | Hx]; destruct (Rle_dec y1 y2) as [Hy | Hy].
  - rewrite (Rmax_right x1 x2), (Rmin_left x1 x2),
      (Rmax_right y1 y2), (Rmin_left y1 y2) by lra.
    apply Rabs_le. lra.
  - rewrite (Rmax_right x1 x2), (Rmin_left x1 x2),
      (Rmax_left y1 y2), (Rmin_right y1 y2) by lra.
    assert (ln x1 <= ln x2) by (apply ln_le_mono; lra).
    assert (ln y2 <= ln y1) by (apply ln_le_mono; lra).
    apply Rabs_le. lra.
  - rewrite (Rmax_left x1 x2), (Rmin_right x1 x2),
      (Rmax_right y1 y2), (Rmin_left y1 y2) by lra.
    assert (ln x2 <= ln x1) by (apply ln_le_mono; lra).
    assert (ln y1 <= ln y2) by (apply ln_le_mono; lra).
    apply Rabs_le. lra.
  - rewrite (Rmax_left x1 x2), (Rmin_right x1 x2),
      (Rmax_left y1 y2), (Rmin_right y1 y2) by lra.
    apply Rabs_le. lra.
Qed.

Section Conversion.

Variables (eta : R) (rnd : R -> R).
Hypothesis eta_small : 0 <= eta <= 1e-9.
Hypothesis rnd_ok : rounds eta rnd.

(** Dividing by a constant, then multiplying by it, with three roundings
    and the rounded constant. *)
Lemma divide_multiply (C x : R) :
  1e-3 <= C <= 1e3 -> 1e-100 <= x <= 1e100 ->
  near (8 * eta) (rnd (rnd (x / rnd C) * rnd C)) x.
Proof.
  intros HC Hx.
  pose proof (rnd_near_self eta rnd eta_small rnd_ok C ltac:(lra)) as Hc.
  pose proof (near_div _ _ _ _ _ _ (near_refl x ltac:(lra)) Hc) as H1.
  assert (Hq : 1e-103 <= x / C <= 1e103) by (apply div_bounds; lra).
  pose proof (rnd_near eta rnd eta_small rnd_ok _ _ _ H1 ltac:(lra) ltac:(lra)) as H2.
  pose proof (near_mult _ _ _ _ _ _ H2 Hc) as H3.
  replace (x / C * C) with x in H3 by (field; lra).
  pose proof (rnd_near eta rnd eta_small rnd_ok _ _ _ H3 ltac:(lra) ltac:(lra)) as H4.
  eapply near_weaken; [exact H4 | lra].
Qed.

Lemma multiply_divide (C x : R) :
  1e-3 <= C <= 1e3 -> 1e-100 <= x <= 1e100 ->
  near (8 * eta) (rnd (rnd (x * rnd C) / rnd C)) x.
Proof.
  intros HC Hx.
  pose proof (rnd_near_self eta rnd eta_small rnd_ok C ltac:(lra)) as Hc.
  pose proof (near_mult _ _ _ _ _ _ (near_refl x ltac:(lra)) Hc) as H1.
  assert (Hq : 1e-103 <= x * C <= 1e103) by nra.
  pose proof (rnd_near eta rnd eta_small rnd_ok _ _ _ H1 ltac:(lra) ltac:(lra)) as H2.
  pose proof (near_div _ _ _ _ _ _ H2 Hc) as H3.
  replace (x * C / C) with x in H3 by (field; lra).
  pose proof (rnd_near eta rnd eta_small rnd_ok _ _ _ H3 ltac:(lra) ltac:(lra)) as H4.
  eapply near_weaken; [exact H4 | lra].
Qed.

(** A distance of [8 * eta] as a relative error. *)
Lemma near_8_rel (x y : R) : near (8 * eta) x y -> Rabs (x - y) <= 16 * eta * y.
Proof.
  intros H. pose proof H as (_ & Hy & _).
  apply near_rel in H; [| lra]. apply Rabs_le. lra.
Qed.

End Conversion.

(** X17: entering a displayed value again, or displaying an entered
    value, gives back the value up to rounding: for each of the four
    quantities, in either unit system, the relative error is at most
    [16 * eta] when each rounding has a relative error of at most [eta]. *)
Theorem unit_conversion_roundtrip (eta : R) (rnd : R -> R) (units : Units) (x : R) :
  0 <= eta <= 1e-10 -> rounds eta rnd -> 1e-100 <= x <= 1e100 ->
  let back (handler display : Units -> R -> R) := handler units (display units x) in
  let forth (handler display : Units -> R -> R) := display units (handler units x) in
  Rabs (back (Rounded.handleAirflowChange rnd) (Rounded.displayAirflow rnd) - x)
    <= 16 * eta * x
  /\ Rabs (back (Rounded.handleFrictionChange rnd) (Rounded.displayFriction rnd) - x)
       <= 16 * eta * x
  /\ Rabs (back (Rounded.handleVelocityChange rnd) (Rounded.displayVelocity rnd) - x)
       <= 16 * eta * x
  /\ Rabs (back (Rounded.handleRectSideChange rnd) (Rounded.displayRectSide rnd) - x)
       <= 16 * eta * x
  /\ Rabs (forth (Rounded.handleAirflowChange rnd) (Rounded.displayAirflow rnd) - x)
       <= 16 * eta * x
  /\ Rabs (forth (Rounded.handleFrictionChange rnd) (Rounded.displayFriction rnd) - x)
       <= 16 * eta * x
  /\ Rabs (forth (Rounded.handleVelocityChange rnd) (Rounded.displayVelocity rnd) - x)
       <= 16 * eta * x
  /\ Rabs (forth (Rounded.handleRectSideChange rnd) (Rounded.displayRectSide rnd) - x)
       <= 16 * eta * x.
Proof.
  intros He0 Hr Hx. assert (He : 0 <= eta <= 1e-9) by lra. cbv zeta.
  assert (H0 : Rabs (x - x) <= 16 * eta * x).
  { replace (x - x) with 0 by ring. rewrite Rabs_R0. nra. }
  destruct units; cbn [Rounded.handleAirflowChange Rounded.handleFrictionChange
    Rounded.handleVelocityChange Rounded.handleRectSideChange
    Rounded.displayAirflow Rounded.displayFriction Rounded.displayVelocity
    Rounded.displayRectSide];
    [repeat split; exact H0 |].
  unfold CMH_TO_CFM, PA_M_TO_IN_100FT, M_S_TO_FPM, MM_TO_IN.
  repeat split; apply (near_8_rel eta He);
    first [apply divide_multiply | apply multiply_divide]; try assumption; lra.
Qed.

Lemma unit_conversion_roundtrip_witness :
  Rabs (Rounded.handleAirflowChange rnd_high SI (Rounded.displayAirflow rnd_high SI 850)
        - 850) <= 16 * 1e-10 * 850.
Proof.
  destruct (unit_conversion_roundtrip 1e-10 rnd_high SI 850) as [H _];
    [lra | apply rounds_high | lra | exact H].
Defined.

(** The ratio of the larger to the smaller of two positive numbers does not
    change when both are divided by the same positive number. *)
Lemma ratio_scale (a b c : R) :
  0 < a -> 0 < b -> 0 < c ->
  Rmax (a / c) (b / c) / Rmin (a / c) (b / c) = Rmax a b / Rmin a b.
Proof.
  intros Ha Hb Hc.
  assert (Hi : 0 < / c) by (apply Rinv_0_lt_compat; assumption).
  destruct (Rle_dec a b) as [H | H].
  - rewrite (Rmax_right a b), (Rmin_left a b) by lra.
    rewrite Rmax_right, Rmin_left by (unfold Rdiv; nra). field. lra.
  - rewrite (Rmax_left a b), (Rmin_right a b) by lra.
    rewrite Rmax_left, Rmin_right by (unfold Rdiv; nra). field. lra.
Qed.

(** X20: for a constraint side and a required side from 0.001 to 1e6 inches
    the aspect ratio computed in either unit system is within 1e-8 of the
    exact ratio of the two sides, so that the warning is the same in both
    unit systems unless that ratio is within 0.01 of the limit 4. *)
Theorem ratio_unit_independent (eta : R) (rnd : R -> R) (units : Units) (a b : R) :
  0 <= eta <= 1e-10 -> rounds eta rnd ->
  1e-3 <= a <= 1e6 -> 1e-3 <= b <= 1e6 ->
  let exact := Rmax a b / Rmin a b in
  Rabs (Rounded.ratioVal rnd units a b - exact) <= 1e-8 * exact
  /\ (exact <= 3.99 -> Rounded.isRatioWarning rnd units a b = false)
  /\ (4.01 <= exact -> Rounded.isRatioWarning rnd units a b = true).
Proof.
  intros He0 Hr Ha Hb exact. assert (He : 0 <= eta <= 1e-9) by lra.
  assert (Hex : 1 <= exact <= 1e9).
  { unfold exact. destruct (Rle_dec a b) as [H | H].
    - rewrite Rmax_right, Rmin_left by lra. apply div_bounds; lra.
    - rewrite Rmax_left, Rmin_right by lra. apply div_bounds; lra. }
  assert (Hn : near (12 * eta) (Rounded.ratioVal rnd units a b) exact).
  { unfold Rounded.ratioVal. cbv zeta. destruct units;
      cbn [Rounded.displayRectSide Rounded.showRectRes].
    - rewrite !orOne_nonzero by lra.
      pose proof (near_ratio _ _ _ _ _ _ (near_refl a ltac:(lra)) (near_refl b ltac:(lra))) as H1.
      fold exact in H1.
      pose proof (rnd_near eta rnd He Hr _ _ _ H1 ltac:(lra) ltac:(lra)) as H2.
      eapply near_weaken; [exact H2 | lra].
    - unfold MM_TO_IN.
      pose proof (rnd_near_self eta rnd He Hr 0.0393701 ltac:(lra)) as Hc.
      pose proof (near_div _ _ _ _ _ _ (near_refl a ltac:(lra)) Hc) as Ha1.
      pose proof (near_div _ _ _ _ _ _ (near_refl b ltac:(lra)) Hc) as Hb1.
      assert (Hqa : 1e-3 <= a / 0.0393701 <= 1e8) by (apply div_bounds; lra).
      assert (Hqb : 1e-3 <= b / 0.0393701 <= 1e8) by (apply div_bounds; lra).
      pose proof (rnd_near eta rnd He Hr _ _ _ Ha1 ltac:(lra) ltac:(lra)) as Ha2.
      pose proof (rnd_near eta rnd He Hr _ _ _ Hb1 ltac:(lra) ltac:(lra)) as Hb2.
      rewrite !orOne_nonzero
        by (apply Rgt_not_eq; first [apply Ha2 | apply Hb2]).
      pose proof (near_ratio _ _ _ _ _ _ Ha2 Hb2) as H1.
      rewrite ratio_scale in H1 by lra. fold exact in H1.
      pose proof (rnd_near eta rnd He Hr _ _ _ H1 ltac:(lra) ltac:(lra)) as H2.
      eapply near_weaken; [exact H2 | lra]. }
  apply near_rel in Hn; [| lra].
  assert (Hev : 0 <= eta * exact <= 1e-10 * exact)
    by (split; [apply Rmult_le_pos | apply Rmult_le_compat_r]; lra).
  split; [apply Rabs_le; lra |].
  unfold Rounded.isRatioWarning.
  split; intros Hside;
    destruct (Rlt_dec 4 (Rounded.ratioVal rnd units a b)) as [H | H];
    try reflexivity; exfalso; lra.
Qed.

Lemma ratio_unit_independent_witness :
  Rounded.isRatioWarning rnd_high SI 12 13.5 = false.
Proof.
  destruct (ratio_unit_independent 1e-10 rnd_high SI 12 13.5) as (_ & H & _);
    [lra | apply rounds_high | lra | lra |].
  apply H. rewrite Rmax_right, Rmin_left by lra. lra.
Defined.

(** * The engine over binary64 numbers: overflow, underflow, rounding *)

Module DoubleFacts.

Import Floats.
#[local] Set Warnings "-inexact-float".
Local Open Scope float_scope.

(** ** Multiplication by 1 is exact *)






(** ** Comparison with an infinite target *)





(** ** Round trips, the search and the conversions *)

(** C1 as stated, refuted: the airflow 1e200 and the friction rate 0.1 are
    positive; [Math.pow(1e200, 1.9)] overflows, the solved diameter is
    [Infinity] and [calcFriction] at that diameter is NaN, not 0.1.  With
    the airflow 1e-200 the power underflows, the diameter is 0 and
    [calcFriction] returns 0. *)
Theorem roundtrip_friction_overflow :
  Double.solveDiaByFriction Double.Math_pow 1e200 0.1 = Some infinity
  /\ Double.calcFriction Double.Math_pow 1e200 infinity = Some nan
  /\ Double.solveDiaByFriction Double.Math_pow 1e-200 0.1 = Some 0
  /\ Double.calcFriction Double.Math_pow 1e-200 0 = Some 0.
Proof. repeat split; vm_compute; reflexivity. Qed.

(** C2 as stated, refuted: the airflow 5e-324 and the velocity 500 are
    positive; their quotient underflows to 0, the solved diameter is 0 and
    [calcVelocity] returns 0, not 500.  With the airflow 1e200 and the
    velocity 1e-200 the quotient overflows, the diameter is [Infinity] and
    [calcVelocity] returns 0, not 1e-200. *)
Theorem roundtrip_velocity_underflow :
  Double.solveDiaByVelocity 5e-324 500 = 0
  /\ Double.calcVelocity Double.Math_pow 5e-324 0 = Some 0
  /\ Double.solveDiaByVelocity 1e200 1e-200 = infinity
  /\ Double.calcVelocity Double.Math_pow 1e200 infinity = Some 0.
Proof. repeat split; vm_compute; reflexivity. Qed.

(** The airflow field takes 1e200; in friction mode the solved diameter is
    then [Infinity], which passes the test [d > 0] of the calculation
    effect. *)
Lemma airflow_1e200_diameter :
  Double.solveDiaByFriction Double.Math_pow 1e200 0.1 = Some infinity
  /\ (0 <? infinity) = true.
Proof. split; vm_compute; reflexivity. Qed.





End DoubleFacts.
